(** * RumbleDeck: the sequencer codec of the plugin front-end and the
      usbmon sniffer back-end

    Two programs of the repository are embedded here.

    - [Codec]: the sequencer helpers of [src/index.tsx]: the table
      [LIBRARIES], [encodeSteps], the decoding done by [doLoad] and the
      call sequence of [applyAndPlay].
    - [Sniffer]: the C program "rumblesniffer v0.7" ([send_i2c_signal] and
      [main]): a blocking read loop over the usbmon text feed, a scan of
      every chunk for the 8 characters of [PATTERN], and a two-byte I2C
      write per match.

    - [Controller]: the [programSequence] operation of the actuator
      controller.  The back-end that implements it is not among the
      sources; it is modelled from the specification.

    Definitions come first, then the lemmas about them. *)

From Stdlib Require Import String Strings.Byte.
From Stdlib Require Import List ZArith QArith Qminmax Lia Bool.
Import ListNotations.

Local Open Scope Z_scope.

(* ================================================================== *)
(** ** Front-end: [src/index.tsx] *)

Module Codec.

(** [type Step = { isWait: boolean; val: number }].  The value is an
    effect id or a wait in milliseconds.  The editor's sliders (step 1 and
    step 10) and [doLoad] only ever store integral numbers, so [val] is an
    integer here and [Math.trunc] is the identity on it. *)
Record Step : Type := mkStep { isWait : bool; val : Z }.

Definition Effect (id : Z) : Step := mkStep false id.
Definition Wait (ms : Z) : Step := mkStep true ms.

(** [type LibInfo = { id; name; note; effectMax }] *)
Record LibInfo : Type :=
  mkLib { id : Z; name : string; note : string; effectMax : Z }.

Definition LIBRARIES : list LibInfo :=
  [ mkLib 0 "Empty"         "No ROM effects"         0
  ; mkLib 1 "ERM Library 1" "Clicks / strong pulses" 127
  ; mkLib 2 "ERM Library 2" "Sharp / crisp"          127
  ; mkLib 3 "ERM Library 3" "Soft / smooth"          127
  ; mkLib 4 "ERM Library 4" "Double / ramp patterns" 127
  ; mkLib 5 "ERM Library 5" "Transitions / textures" 127
  ; mkLib 6 "LRA"           "LRA-tuned patterns"     64 ].

Definition EFFECT_ID_MAX : Z := 123.

(** [Math.max(...LIBRARIES.map(l => l.id))] *)
Definition MAX_LIBRARY_ID : Z :=
  fold_right Z.max 0 (map id LIBRARIES).

(** [LIBRARIES.find(l => l.id === id) ?? LIBRARIES[0]] *)
Definition libById (i : Z) : LibInfo :=
  match find (fun l => id l =? i) LIBRARIES with
  | Some l => l
  | None => hd (mkLib 0 "Empty" "No ROM effects" 0) LIBRARIES
  end.

(** The bound of the effect slider in [SequencerEditor]:
    [effectMax = currentLib.effectMax > 0 ? currentLib.effectMax : 1] and
    [max={Math.min(Math.max(1, effectMax), EFFECT_ID_MAX)}]. *)
Definition editor_effectMax (libId : Z) : Z :=
  let currentLib := libById libId in
  if 0 <? effectMax currentLib then effectMax currentLib else 1.

Definition effect_slider_max (libId : Z) : Z :=
  Z.min (Z.max 1 (editor_effectMax libId)) EFFECT_ID_MAX.

(** JavaScript helpers on integral numbers. *)
Definition Math_trunc (x : Z) : Z := x.
Definition Math_floor_div (x d : Z) : Z := x / d.   (* Math.floor(x / d) *)
Definition slice_0_8 {A : Type} (l : list A) : list A := firstn 8 l.

(** The body of the [for] loop of [encodeSteps]: the byte pushed for one
    step. *)
Definition encodeStep (s : Step) : Z :=
  if isWait s then
    let ms := Z.max 0 (Z.min 1270 (Math_trunc (val s))) in
    let ticks := Z.min 127 (Math_floor_div ms 10) in
    Z.lor 0x80 ticks
  else
    let id := Z.max 1 (Z.min 127 (Math_trunc (val s))) in
    id.

(** [function encodeSteps(steps: Step[]): number[]]: [out] starts empty,
    every step of [steps.slice(0, 8)] pushes one byte, [out] is returned
    as it is ("backend will append terminator 0x00 if needed"). *)
Definition encodeSteps (steps : list Step) : list Z :=
  fold_left (fun out s => out ++ [encodeStep s]) (slice_0_8 steps) [].

(** The arrow function mapped over the stored bytes in [doLoad]. *)
Definition decodeByte (b : Z) : Step :=
  if negb (Z.land b 0x80 =? 0) then
    let ticks := Z.land b 0x7F in
    mkStep true (ticks * 10)
  else
    mkStep false (Z.max 1 (Z.min 127 b)).

(** [const uiSteps = (p.steps || []).slice(0, 8).map(...)] of [doLoad];
    [p.steps] may be missing. *)
Definition uiSteps (p_steps : option (list Z)) : list Step :=
  map decodeByte
      (slice_0_8 (match p_steps with Some bs => bs | None => [] end)).

(** [setSteps(uiSteps.length ? uiSteps : [{ isWait: false, val: 1 }])]:
    the step list the editor holds after [doLoad]. *)
Definition doLoad_steps (p_steps : option (list Z)) : list Step :=
  match uiSteps p_steps with
  | [] => [mkStep false 1]
  | us => us
  end.

(** *** The back-end calls of [applyAndPlay]

    The back-end behind [callable] is not part of the front-end source; a
    call either resolves or rejects with a message.  The calls issued are
    recorded in order. *)
Inductive rpc : Type :=
| set_library (lib_id : Z)
| program_sequence (steps : list Z)
| play_sequence.

Definition backend : Type := rpc -> option string.   (* None: resolved *)

(** A promise chain inside [try]: the calls made so far, and either a
    value or the caught exception. *)
Definition Async (A : Type) : Type := list rpc -> list rpc * (A + string).

Definition ret {A} (a : A) : Async A := fun calls => (calls, inl a).

Definition bind {A B} (m : Async A) (k : A -> Async B) : Async B :=
  fun calls =>
    match m calls with
    | (calls', inl a) => k a calls'
    | (calls', inr e) => (calls', inr e)
    end.

Definition await (be : backend) (c : rpc) : Async unit :=
  fun calls =>
    match be c with
    | None => (calls ++ [c], inl tt)
    | Some e => (calls ++ [c], inr e)
    end.

Notation "m ;; k" := (bind m (fun _ => k))
  (at level 61, right associativity).

Inductive toast : Type :=
| ToastPlaying
| ToastError (msg : string).

(** [applyAndPlay]: set the library, program the encoded steps, play;
    any rejection is caught and shown as an error toast. *)
Definition applyAndPlay (be : backend) (libId : Z) (steps : list Step)
  : list rpc * toast :=
  match (await be (set_library libId) ;;
         await be (program_sequence (encodeSteps steps)) ;;
         await be play_sequence ;;
         ret ToastPlaying) [] with
  | (calls, inl t) => (calls, t)
  | (calls, inr e) => (calls, ToastError e)
  end.

(** Steps the editor can hold by construction (§3 of the specification):
    effect ids in 1..127, waits a whole multiple of 10 ms in 0..1270. *)
Definition valid_step (s : Step) : Prop :=
  if isWait s
  then 0 <= val s <= 1270 /\ val s mod 10 = 0
  else 1 <= val s <= 127.

(** *** The editor's step list ([SequencerEditor])

    [setSteps(prev => ...)] with the three updaters of the component. *)

(** [const newLib = Math.min(MAX_LIBRARY_ID, Math.max(0, p.lib ?? 0))] of
    [doLoad].  No [Math.trunc] is applied here, so the stored number is
    kept as it is, integral or not; [p.lib] may be missing. *)
Definition doLoad_lib (p_lib : option Q) : Q :=
  Qmin (inject_Z MAX_LIBRARY_ID)
       (Qmax 0%Q (match p_lib with Some l => l | None => 0%Q end)).

(** [libById(libId)] for the number that [setLibId(newLib)] stored:
    [l.id === id] holds for no entry when the number is not integral. *)
Definition libById_num (libId : Q) : LibInfo :=
  match find (fun l => Qeq_bool (inject_Z (id l)) libId) LIBRARIES with
  | Some l => l
  | None => hd (mkLib 0 "Empty" "No ROM effects" 0) LIBRARIES
  end.

(** [Partial<Step>]: the keys a patch carries. *)
Record StepPatch : Type :=
  mkPatch { patch_isWait : option bool; patch_val : option Z }.

(** [{ ...s, ...patch }] *)
Definition spread (s : Step) (patch : StepPatch) : Step :=
  mkStep (match patch_isWait patch with Some b => b | None => isWait s end)
         (match patch_val patch with Some v => v | None => val s end).

(** [Array.prototype.map] and [filter] with the index as second argument;
    [idx] is the index of the head. *)
Fixpoint map_idx {A B : Type} (f : A -> nat -> B) (l : list A) (idx : nat)
  : list B :=
  match l with
  | [] => []
  | a :: l' => f a idx :: map_idx f l' (S idx)
  end.

Fixpoint filter_idx {A : Type} (f : A -> nat -> bool) (l : list A) (idx : nat)
  : list A :=
  match l with
  | [] => []
  | a :: l' =>
      if f a idx then a :: filter_idx f l' (S idx) else filter_idx f l' (S idx)
  end.

(** [prev.map((s, idx) => (idx === i ? { ...s, ...patch } : s))] *)
Definition updateStep (i : nat) (patch : StepPatch) (prev : list Step)
  : list Step :=
  map_idx (fun s idx => if (idx =? i)%nat then spread s patch else s) prev 0.

(** [prev.length < 8 ? [...prev, { isWait: false, val: 1 }] : prev] *)
Definition addStep (prev : list Step) : list Step :=
  if (length prev <? 8)%nat then prev ++ [mkStep false 1] else prev.

(** [prev.filter((_, idx) => idx !== i)] *)
Definition removeStep (i : nat) (prev : list Step) : list Step :=
  filter_idx (fun _ idx => negb (idx =? i)%nat) prev 0.

(** The initial [useState] value of the step list. *)
Definition initial_steps : list Step :=
  [mkStep false 1; mkStep true 100; mkStep false 2].

(** What the user can do to the step list: the three buttons and slider
    rows, and a successful "Load to Editor". *)
Inductive edit : Type :=
| AddStep
| RemoveStep (i : nat)
| UpdateStep (i : nat) (patch : StepPatch)
| LoadPreset (p_steps : option (list Z)).

Definition apply_edit (steps : list Step) (a : edit) : list Step :=
  match a with
  | AddStep => addStep steps
  | RemoveStep i => removeStep i steps
  | UpdateStep i patch => updateStep i patch steps
  | LoadPreset p_steps => doLoad_steps p_steps
  end.

Definition editor_after (edits : list edit) : list Step :=
  fold_left apply_edit edits initial_steps.

(** *** Definitions used to state the properties *)

(** [encodeSequence] as the specification words it, for comparison with
    [encodeSteps]: the first 8 steps, then a 0x00 terminator when fewer
    than 8 steps were supplied and the last byte is not one already. *)
Definition encodeSequence_spec (steps : list Step) : list Z :=
  let out := map encodeStep (firstn 8 steps) in
  if (length steps <? 8)%nat && negb (last out 1 =? 0)
  then out ++ [0] else out.

End Codec.

(* ================================================================== *)
(** ** Back-end: the usbmon sniffer (C) *)

Module Sniffer.

Definition USBMON_PATH : string := "/sys/kernel/debug/usb/usbmon/3u".
Definition I2C_DEVICE : string := "/dev/i2c-0".
Definition I2C_ADDR : Z := 0x5a.

(** A C string literal: its characters and the terminating NUL. *)
Definition c_string (s : string) : list byte := list_byte_of_string s ++ [x00].

(** [#define PATTERN "eb090140"]: eight ASCII characters. *)
Definition PATTERN : list byte := c_string "eb090140".

(** [unsigned char data_to_send[] = {0x0C, 0x01}] *)
Definition data_to_send : list byte := [x0c; x01].

Inductive fd : Type := usbmon_fd | i2c_fd.

(** Lines written by [printf]. *)
Inductive line : Type :=
| Starting                              (* "Starting USB sniffing ..." *)
| PatternFound (i : nat)                (* "Pattern found at position %zd" *)
| SignalSent (data : list byte).        (* "I2C signal sent successfully" *)

(** What the process does to the outside. *)
Inductive event : Type :=
| Perror (msg : string)
| Printf (l : line)
| I2CWrite (addr : Z) (data : list byte)   (* write(2) on the I2C file *)
| Usleep (us : Z)
| Close (f : fd).

(** The process and its surroundings: a clock in microseconds (reads block
    until data arrives, [usleep] advances it; computation is taken as
    instantaneous), the slave address bound to the I2C file by
    [ioctl(I2C_SLAVE)], the number of [read] and [write] calls made so far,
    and the time-stamped log of events. *)
Record world : Type := mkWorld {
  clock : Z;
  slave : Z;
  n_reads : nat;
  n_writes : nat;
  log : list (Z * event)
}.

Definition emit (e : event) (w : world) : world :=
  mkWorld (clock w) (slave w) (n_reads w) (n_writes w)
          (log w ++ [(clock w, e)]).

(** One scripted result of [read(usbmon_fd, buffer, sizeof(buffer))]: the
    time at which the call returns at the earliest, and either a failure
    (return value -1) or the bytes stored into the buffer. *)
Inductive read_result : Type :=
| ReadFail
| ReadData (data : list byte).

Record feed_item : Type := mkItem { arrival : Z; result : read_result }.

(** The environment of one run: whether the three start-up calls succeed,
    the results of the successive reads of the monitor feed, and the
    return value of the k-th [write] on the I2C file. *)
Record env : Type := mkEnv {
  open_usbmon_ok : bool;
  open_i2c_ok : bool;
  ioctl_ok : bool;
  feed : list feed_item;
  bus : nat -> Z
}.

(** [read]: blocks until [arrival]; on success the first bytes of the
    buffer are overwritten and the rest keeps its old contents.  The
    kernel delivers at most [sizeof(buffer)] = 1024 bytes per call; nothing
    below depends on that bound. *)
Definition sys_read (it : feed_item) (buffer : list byte) (w : world)
  : Z * list byte * world :=
  let w' := mkWorld (Z.max (clock w) (arrival it)) (slave w)
                    (S (n_reads w)) (n_writes w) (log w) in
  match result it with
  | ReadFail => (-1, buffer, w')
  | ReadData d => (Z.of_nat (length d), d ++ skipn (length d) buffer, w')
  end.

(** [write(i2c_fd, data, length)]: one bus transaction to the bound slave
    address; the return value comes from the environment. *)
Definition sys_write (bus : nat -> Z) (data : list byte) (w : world)
  : Z * world :=
  (bus (n_writes w),
   emit (I2CWrite (slave w) data)
        (mkWorld (clock w) (slave w) (n_reads w) (S (n_writes w)) (log w))).

Definition usleep (us : Z) (w : world) : world :=
  let w' := emit (Usleep us) w in
  mkWorld (clock w' + us) (slave w') (n_reads w') (n_writes w') (log w').

(** [ioctl(i2c_fd, I2C_SLAVE, addr)] when it succeeds. *)
Definition ioctl_slave (addr : Z) (w : world) : world :=
  mkWorld (clock w) addr (n_reads w) (n_writes w) (log w).

(** Lexicographic comparison of two byte strings as unsigned chars. *)
Fixpoint cmp_bytes (s1 s2 : list byte) : Z :=
  match s1, s2 with
  | a :: s1', b :: s2' =>
      if Byte.eqb a b then cmp_bytes s1' s2'
      else Z.of_N (Byte.to_N a) - Z.of_N (Byte.to_N b)
  | _, _ => 0
  end.

(** [memcmp(s1, s2, n)] where [s1] and [s2] are what is left of the two
    arrays from the given addresses on.  It may touch all [n] bytes of
    both; with fewer than [n] bytes left the access is out of bounds and
    the behaviour undefined ([None]). *)
Definition memcmp (s1 s2 : list byte) (n : nat) : option Z :=
  if (n <=? length s1)%nat && (n <=? length s2)%nat
  then Some (cmp_bytes (firstn n s1) (firstn n s2))
  else None.

(** [void send_i2c_signal(int i2c_fd, unsigned char *data, size_t length)] *)
Definition send_i2c_signal (bus : nat -> Z) (data : list byte) (w : world)
  : world :=
  let '(r, w1) := sys_write bus data w in
  if negb (r =? Z.of_nat (length data)) then
    emit (Perror "Error sending I2C signal") w1
  else
    emit (Printf (SignalSent data)) w1.

(** The body of the [if] in the scan loop: report, signal, sleep 10 ms. *)
Definition fire (bus : nat -> Z) (i : nat) (w : world) : world :=
  usleep 10000
    (send_i2c_signal bus data_to_send
       (emit (Printf (PatternFound i)) w)).

(** One iteration of [for (ssize_t i = 0; i < bytesRead; i++)]:
    [if (i + 7 < bytesRead && memcmp(&buffer[i], PATTERN, 8) == 0) ...],
    with the short-circuit of [&&]. *)
Definition scan_at (bus : nat -> Z) (buffer : list byte) (bytesRead : Z)
           (i : nat) (w : world) : option world :=
  if Z.of_nat i + 7 <? bytesRead then
    match memcmp (skipn i buffer) PATTERN 8 with
    | None => None
    | Some c => if c =? 0 then Some (fire bus i w) else Some w
    end
  else Some w.

Fixpoint for_loop (bus : nat -> Z) (buffer : list byte) (bytesRead : Z)
         (todo : list nat) (w : world) : option world :=
  match todo with
  | [] => Some w
  | i :: todo' =>
      match scan_at bus buffer bytesRead i w with
      | None => None
      | Some w' => for_loop bus buffer bytesRead todo' w'
      end
  end.

(** How a run ends: the process returned, or it is blocked in [read]
    because the scripted feed has nothing more to deliver (the loop itself
    never ends), or it made an out-of-bounds access. *)
Inductive outcome : Type :=
| Exited (code : Z) (w : world)
| Blocked (w : world)
| Undefined.

(** [while (1) { read; if (bytesRead == -1) {...; return 1;} for ... }] *)
Fixpoint main_loop (bus : nat -> Z) (feed : list feed_item)
         (buffer : list byte) (w : world) : outcome :=
  match feed with
  | [] => Blocked w
  | it :: feed' =>
      let '(bytesRead, buffer', w1) := sys_read it buffer w in
      if bytesRead =? -1 then
        Exited 1 (emit (Close i2c_fd)
                    (emit (Close usbmon_fd)
                       (emit (Perror "Error reading from usbmon") w1)))
      else
        match for_loop bus buffer' bytesRead
                       (seq 0 (Z.to_nat bytesRead)) w1 with
        | None => Undefined
        | Some w2 => main_loop bus feed' buffer' w2
        end
  end.

Definition world0 : world := mkWorld 0 0 0 0 [].

(** [int main()]; [stack] is what the uninitialised [char buffer[1024]]
    happens to hold. *)
Definition main (e : env) (stack : list byte) : outcome :=
  if negb (open_usbmon_ok e) then
    Exited 1 (emit (Perror "Error opening usbmon") world0)
  else if negb (open_i2c_ok e) then
    Exited 1 (emit (Close usbmon_fd)
                (emit (Perror "Error opening I2C port") world0))
  else if negb (ioctl_ok e) then
    Exited 1 (emit (Close i2c_fd)
                (emit (Close usbmon_fd)
                   (emit (Perror "Error setting I2C address") world0)))
  else
    main_loop (bus e) (feed e) stack
              (emit (Printf Starting) (ioctl_slave I2C_ADDR world0)).

(** *** Observations of a run *)

Definition final (o : outcome) : option world :=
  match o with
  | Exited _ w => Some w
  | Blocked w => Some w
  | Undefined => None
  end.

Definition events (w : world) : list event := map snd (log w).

(** The bus transactions, the times at which they were issued, the
    positions reported as matches and the failures logged by
    [send_i2c_signal]. *)
Definition bus_writes (w : world) : list (Z * list byte) :=
  flat_map (fun te => match snd te with
                      | I2CWrite a d => [(a, d)]
                      | _ => []
                      end) (log w).

Definition fire_times (w : world) : list Z :=
  flat_map (fun te => match snd te with
                      | I2CWrite _ _ => [fst te]
                      | _ => []
                      end) (log w).

Definition reported (w : world) : list nat :=
  flat_map (fun te => match snd te with
                      | Printf (PatternFound i) => [i]
                      | _ => []
                      end) (log w).

Definition send_errors (w : world) : nat :=
  length (flat_map (fun te => match snd te with
                              | Perror "Error sending I2C signal" => [tt]
                              | _ => []
                              end) (log w)).

(** *** The signature in a byte string *)

Definition signature : list byte := firstn 8 PATTERN.

Definition list_byte_eqb (a b : list byte) : bool :=
  if list_eq_dec Byte.byte_eq_dec a b then true else false.

(** The signature sits at offset [i] of [s]. *)
Definition occurs_at (s : list byte) (i : nat) : bool :=
  list_byte_eqb (firstn 8 (skipn i s)) signature.

(** All offsets of [s] at which the signature sits. *)
Definition occurrences (s : list byte) : list nat :=
  filter (occurs_at s) (seq 0 (length s)).

(** The occurrence at stream offset [p] lies wholly inside one of the
    chunks, the first of which starts at stream offset [base]. *)
Fixpoint hosted (base p : nat) (chunks : list (list byte)) : bool :=
  match chunks with
  | [] => false
  | c :: cs =>
      ((base <=? p)%nat && (p + 8 <=? base + length c)%nat)
      || hosted (base + length c) p cs
  end.

(** Start-up succeeded, and the chunks delivered before the first failing
    read. *)
Definition startup_ok (e : env) : bool :=
  open_usbmon_ok e && open_i2c_ok e && ioctl_ok e.

Fixpoint chunks_read (feed : list feed_item) : list (list byte) :=
  match feed with
  | [] => []
  | it :: feed' =>
      match result it with
      | ReadFail => []
      | ReadData d => d :: chunks_read feed'
      end
  end.

Definition scanned (e : env) : list (list byte) :=
  if startup_ok e then chunks_read (feed e) else [].

(** The k-th write on the bus fails: it returns something else than the
    two bytes asked for. *)
Definition write_fails (bus : nat -> Z) (k : nat) : bool :=
  negb (bus k =? 2).

(** Consecutive times are at least [d] apart. *)
Fixpoint spaced (d : Z) (ts : list Z) : Prop :=
  match ts with
  | t1 :: ((t2 :: _) as tl) => t1 + d <= t2 /\ spaced d tl
  | _ => True
  end.

(** A feed that delivers the given chunks at the given times and never
    fails. *)
Definition feed_of (timed : list (Z * list byte)) : list feed_item :=
  map (fun tc => mkItem (fst tc) (ReadData (snd tc))) timed.

Definition all_ok (timed : list (Z * list byte)) : env :=
  mkEnv true true true (feed_of timed) (fun _ => 2).

(** *** The loop without its buffer *)

(** What [sys_read] does to the world, whatever it returns. *)
Definition tick (it : feed_item) (w : world) : world :=
  mkWorld (Z.max (clock w) (arrival it)) (slave w)
          (S (n_reads w)) (n_writes w) (log w).

(** The exit path of a failed read. *)
Definition bail (w : world) : world :=
  emit (Close i2c_fd)
    (emit (Close usbmon_fd)
       (emit (Perror "Error reading from usbmon") w)).

(** One [fire] per listed position, in order. *)
Definition fires (bus : nat -> Z) (l : list nat) (w : world) : world :=
  fold_left (fun w i => fire bus i w) l w.

(** The loop of [main] without its buffer: every chunk fires once per
    occurrence of the signature inside it. *)
Fixpoint run (bus : nat -> Z) (feed : list feed_item) (w : world) : outcome :=
  match feed with
  | [] => Blocked w
  | it :: feed' =>
      match result it with
      | ReadFail => Exited 1 (bail (tick it w))
      | ReadData d => run bus feed' (fires bus (occurrences d) (tick it w))
      end
  end.

(** The number of reads a feed allows: every chunk, and the failing read
    if there is one. *)
Fixpoint reads_made (feed : list feed_item) : nat :=
  match feed with
  | [] => 0
  | it :: feed' =>
      match result it with
      | ReadFail => 1
      | ReadData _ => S (reads_made feed')
      end
  end.

(** The world in which a run ends. *)
Fixpoint run_world (bus : nat -> Z) (feed : list feed_item) (w : world)
  : world :=
  match feed with
  | [] => w
  | it :: feed' =>
      match result it with
      | ReadFail => bail (tick it w)
      | ReadData d => run_world bus feed' (fires bus (occurrences d) (tick it w))
      end
  end.

(** The world in which the loop is entered. *)
Definition started : world :=
  emit (Printf Starting) (ioctl_slave I2C_ADDR world0).

(** The event that follows the k-th bus write in the log. *)
Definition send_report (bus : nat -> Z) (k : nat) : event :=
  if write_fails bus k then Perror "Error sending I2C signal"
  else Printf (SignalSent data_to_send).

(** Every bus write so far was followed by a sleep of [d]: the recorded
    times are [d] apart and the clock is [d] past the last one. *)
Definition cool (d : Z) (w : world) : Prop :=
  spaced d (fire_times w) /\ Forall (fun t => t + d <= clock w) (fire_times w).

(** The matches of a feed: the occurrences inside each chunk that was
    read, chunk after chunk. *)
Definition matches (feed : list feed_item) : list nat :=
  flat_map occurrences (chunks_read feed).

Definition with_feed (e : env) (f : list feed_item) : env :=
  mkEnv (open_usbmon_ok e) (open_i2c_ok e) (ioctl_ok e) f (bus e).

(** *** Further observations *)

(** The descriptors closed, in order, and the descriptors that the
    start-up of [main] opened. *)
Definition closed (w : world) : list fd :=
  flat_map (fun te => match snd te with
                      | Close f => [f]
                      | _ => []
                      end) (log w).

Definition opened (e : env) : list fd :=
  if open_usbmon_ok e
  then usbmon_fd :: (if open_i2c_ok e then [i2c_fd] else [])
  else [].

(** Some read of the feed fails. *)
Definition read_fails (feed : list feed_item) : bool :=
  existsb (fun it => match result it with
                     | ReadFail => true
                     | ReadData _ => false
                     end) feed.

Definition exit_code (o : outcome) : option Z :=
  match o with
  | Exited c _ => Some c
  | _ => None
  end.

(** The number of suffixes of [s] that start with the signature. *)
Fixpoint hits (s : list byte) : nat :=
  match s with
  | [] => 0
  | _ :: t => ((if occurs_at s 0 then 1 else 0) + hits t)%nat
  end.

(** Two worlds that differ at most in their clocks and time stamps. *)
Definition same_trace (w w' : world) : Prop :=
  events w = events w' /\ n_writes w = n_writes w' /\ slave w = slave w'.

End Sniffer.

(* ================================================================== *)
(** ** Front-end: the register pages, the status card and the routes *)

Module Tuning.

(** The reply of a back-end call: the resolved value or the message of
    the rejection. *)
Definition reply (A : Type) : Type := (A + string)%type.

(** [function TimingOffsets()] *)
Module TimingOffsets.

(** The four [useState] values. *)
Record state : Type := mkState { ovr : Z; susP : Z; susN : Z; brk : Z }.

(** What [get_timing_offsets] resolves to. *)
Record offsets : Type :=
  mkOffsets { overdrive : Z; sustain_pos : Z; sustain_neg : Z; brake : Z }.

(** The call made by [applyToDevice]. *)
Inductive call : Type :=
| set_timing_offsets (overdrive sustain_pos sustain_neg brake : Z).

(** [const clamp = (v) => Math.max(0, Math.min(255, Math.trunc(v)))] *)
Definition clamp (v : Z) : Z := Z.max 0 (Z.min 255 (Codec.Math_trunc v)).

(** [readFromDevice]: the new state and the body of the toast. *)
Definition readFromDevice (r : reply offsets) (st : state) : state * string :=
  match r with
  | inl r => (mkState (clamp (overdrive r)) (clamp (sustain_pos r))
                      (clamp (sustain_neg r)) (clamp (brake r)),
              "Offsets read"%string)
  | inr e => (st, ("Read failed: " ++ e)%string)
  end.

(** [applyToDevice]: the call made and the body of the toast. *)
Definition applyToDevice (r : reply unit) (st : state) : call * string :=
  (set_timing_offsets (clamp (ovr st)) (clamp (susP st))
                      (clamp (susN st)) (clamp (brk st)),
   match r with
   | inl _ => "Offsets applied"%string
   | inr e => ("Apply failed: " ++ e)%string
   end).

End TimingOffsets.

(** [function DriveParams()] *)
Module DriveParams.

Record state : Type := mkState { rated : Z; over : Z }.

(** What [get_drive_params] resolves to. *)
Record params : Type := mkParams { p_rated : Z; p_overdrive : Z }.

Inductive call : Type :=
| set_drive_params (rated overdrive : Z).

Definition clamp (v : Z) : Z := Z.max 0 (Z.min 255 (Codec.Math_trunc v)).

Definition readFromDevice (r : reply params) (st : state) : state * string :=
  match r with
  | inl r => (mkState (clamp (p_rated r)) (clamp (p_overdrive r)),
              "Drive params read"%string)
  | inr e => (st, ("Read failed: " ++ e)%string)
  end.

Definition applyToDevice (r : reply unit) (st : state) : call * string :=
  (set_drive_params (clamp (rated st)) (clamp (over st)),
   match r with
   | inl _ => "Drive params applied"%string
   | inr e => ("Apply failed: " ++ e)%string
   end).

End DriveParams.

End Tuning.

Module StatusView.

(** The flags of [type Status] that the views read. *)
Record Status : Type := mkStatus {
  fb_timeout : bool;
  over_temp : bool;
  over_current : bool
}.

(** [b && "text"]: [false] or the text. *)
Definition and_text (b : bool) (text : string) : option string :=
  if b then Some text else None.

(** [b ? "text" : null] *)
Definition text_or_null (b : bool) (text : string) : option string :=
  if b then Some text else None.

(** [.filter(Boolean)]: [false], [null] and the empty string are dropped. *)
Definition filter_Boolean (l : list (option string)) : list string :=
  flat_map (fun o => match o with
                     | Some EmptyString => []
                     | Some t => [t]
                     | None => []
                     end) l.

(** [.join(sep)] *)
Definition join (sep : string) (l : list string) : string :=
  String.concat sep l.

(** [text || fallback]: the empty string is falsy. *)
Definition or_text (text fallback : string) : string :=
  match text with
  | EmptyString => fallback
  | _ => text
  end.

(** [const flags = ...] of [StatusCard]. *)
Definition StatusCard_flags (s : Status) : string :=
  or_text (join " " (filter_Boolean
                       [ and_text (over_current s) "OC"
                       ; and_text (over_temp s) "OT"
                       ; and_text (fb_timeout s) "FB_TO" ]))
          "none".

(** [const flags = ...] of [toastStatus]. *)
Definition toastStatus_flags (s : Status) : string :=
  or_text (join ", " (filter_Boolean
                        [ text_or_null (over_current s) "OC"
                        ; text_or_null (over_temp s) "OT"
                        ; text_or_null (fb_timeout s) "FB_TO" ]))
          "none".

(** The flags that are set, in the order of the views. *)
Definition raised (s : Status) : list string :=
  (if over_current s then ["OC"%string] else []) ++
  (if over_temp s then ["OT"%string] else []) ++
  (if fb_timeout s then ["FB_TO"%string] else []).

End StatusView.

Module Plugin.










End Plugin.

(* ================================================================== *)
(** ** The actuator controller's [programSequence] *)

Module Controller.
Import Codec.

(** Modelled from the spec: the sequencer step of §3, a tagged union
    [Effect(id) | Wait(ticks)].  The back-end function behind the callable
    [program_sequence] is missing from the sources, and so are its types. *)
Inductive SequencerStep : Type :=
| Effect (id : Z)
| Wait (ticks : Z).

(** Modelled from the spec: the failures that [programSequence] can
    report (§7); the back-end's error type is missing. *)
Inductive failure : Type :=
| OutOfRange
| BusWriteFailed.

(** Modelled from the spec: what [programSequence] reads and changes
    (§4.5): the currently selected library, the sequencer register block
    of the device, and the writes issued on the bus so far; the back-end's
    state is missing. *)
Record device : Type := mkDevice {
  library : Z;
  sequencer : list Z;
  bus_log : list (list Z)
}.

(** Modelled from the spec: the byte of one step (§3): bit 7 set for a
    wait with the ticks in the low 7 bits, bit 7 clear for an effect with
    the id in the low 7 bits; the back-end's encoder is missing. *)
Definition encodeStep (s : SequencerStep) : Z :=
  match s with
  | Effect id => Z.land id 0x7F
  | Wait ticks => Z.lor 0x80 (Z.land ticks 0x7F)
  end.

(** Modelled from the spec: [encodeSequence] of §4.4: the first 8 steps,
    then a 0x00 terminator when fewer than 8 steps were supplied and the
    last byte is not one already; the back-end's encoder is missing. *)
Definition encodeSequence (steps : list SequencerStep) : list Z :=
  let out := map encodeStep (firstn 8 steps) in
  if (length steps <? 8)%nat && negb (last out 1 =? 0)
  then out ++ [0] else out.

(** Modelled from the spec: the validation of [programSequence] (§4.5):
    an effect id must exceed neither the cap of the currently selected
    library (the [effectMax] of [LIBRARIES]) nor the global cap 123; the
    back-end's validator is missing. *)
Definition effect_in_range (lib : Z) (s : SequencerStep) : bool :=
  match s with
  | Effect id => (id <=? effectMax (libById lib)) && (id <=? EFFECT_ID_MAX)
  | Wait _ => true
  end.

Definition sequence_in_range (lib : Z) (steps : list SequencerStep) : bool :=
  (length steps <=? 8)%nat && forallb (effect_in_range lib) steps.

(** Modelled from the spec: [programSequence(steps)] of §4.5 and §7:
    validate the step count and the effect ids and fail with [OutOfRange]
    before any bus I/O; otherwise encode and write the sequencer register
    block, which either succeeds or fails with [BusWriteFailed]
    ([write_ok] is the answer of the bus primitive); playback is not
    started.  The back-end function itself is missing from the sources. *)
Definition programSequence (write_ok : bool) (steps : list SequencerStep)
           (d : device) : (unit + failure) * device :=
  if negb (sequence_in_range (library d) steps) then (inr OutOfRange, d)
  else
    let bytes := encodeSequence steps in
    if write_ok
    then (inl tt, mkDevice (library d) bytes (bus_log d ++ [bytes]))
    else (inr BusWriteFailed,
          mkDevice (library d) (sequencer d) (bus_log d ++ [bytes])).

End Controller.

(* ================================================================== *)
(** ** Properties of the sequencer codec *)

Module CodecFacts.
Import Codec.

Lemma push_all {A B : Type} (f : A -> B) (l : list A) (acc : list B) :
  fold_left (fun out s => out ++ [f s]) l acc = acc ++ map f l.
Proof.
  revert acc; induction l as [|a l IH]; intros acc; simpl.
  - now rewrite app_nil_r.
  - rewrite IH, <- app_assoc. reflexivity.
Qed.

Lemma encodeSteps_map (steps : list Step) :
  encodeSteps steps = map encodeStep (firstn 8 steps).
Proof. unfold encodeSteps, slice_0_8. now rewrite push_all. Qed.

(** *** Bit 7 and the low seven bits *)

Lemma land_128_small (t : Z) : 0 <= t < 128 -> Z.land t 128 = 0.
Proof.
  intros Ht. apply Z.bits_inj'. intros n Hn.
  rewrite Z.land_spec, Z.bits_0.
  destruct (Z.eq_dec n 7) as [->|Hne].
  - replace (Z.testbit t 7) with false; [reflexivity|].
    symmetry. apply Z.testbit_false; [lia|].
    rewrite Z.div_small by (simpl; lia). reflexivity.
  - change 128 with (2 ^ 7). rewrite Z.pow2_bits_false by lia.
    apply andb_false_r.
Qed.

Lemma land_127_small (t : Z) : 0 <= t < 128 -> Z.land t 127 = t.
Proof.
  intros Ht. change 127 with (Z.ones 7).
  rewrite Z.land_ones by lia. apply Z.mod_small. simpl; lia.
Qed.

Lemma lor_128_small (t : Z) : 0 <= t < 128 -> Z.lor 128 t = 128 + t.
Proof.
  intros Ht. pose proof (Z.add_lor_land 128 t) as H.
  rewrite (Z.land_comm 128 t), land_128_small in H by assumption. lia.
Qed.

Lemma land_lor_128_hi (t : Z) : 0 <= t < 128 -> Z.land (Z.lor 128 t) 128 = 128.
Proof.
  intros Ht. rewrite Z.land_lor_distr_l, (land_128_small t) by assumption.
  reflexivity.
Qed.

Lemma land_lor_128_lo (t : Z) : 0 <= t < 128 -> Z.land (Z.lor 128 t) 127 = t.
Proof.
  intros Ht. rewrite Z.land_lor_distr_l, (land_127_small t) by assumption.
  reflexivity.
Qed.

Lemma testbit7_small (t : Z) : 0 <= t < 128 -> Z.testbit t 7 = false.
Proof.
  intros Ht. apply Z.testbit_false; [lia|].
  rewrite Z.div_small by (simpl; lia). reflexivity.
Qed.

Lemma testbit7_lor_128 (t : Z) : Z.testbit (Z.lor 128 t) 7 = true.
Proof. rewrite Z.lor_spec. reflexivity. Qed.

(** *** The clamps of [encodeStep] *)

Lemma wait_ticks_range (v : Z) :
  0 <= Z.min 127 (Math_floor_div (Z.max 0 (Z.min 1270 (Math_trunc v))) 10) < 128.
Proof.
  unfold Math_floor_div, Math_trunc.
  assert (0 <= Z.max 0 (Z.min 1270 v) / 10) by (apply Z.div_pos; lia).
  lia.
Qed.

Lemma encodeStep_wait (s : Step) :
  isWait s = true ->
  encodeStep s =
  128 + Z.min 127 (Math_floor_div (Z.max 0 (Z.min 1270 (Math_trunc (val s)))) 10).
Proof.
  intros Hw. unfold encodeStep. rewrite Hw.
  apply lor_128_small, wait_ticks_range.
Qed.

Lemma encodeStep_effect (s : Step) :
  isWait s = false -> encodeStep s = Z.max 1 (Z.min 127 (val s)).
Proof. intros He. unfold encodeStep, Math_trunc. now rewrite He. Qed.

Lemma encodeStep_range (s : Step) :
  if isWait s then 0x80 <= encodeStep s <= 0xFF else 1 <= encodeStep s <= 127.
Proof.
  destruct (isWait s) eqn:E.
  - rewrite encodeStep_wait by assumption.
    pose proof (wait_ticks_range (val s)). lia.
  - rewrite encodeStep_effect by assumption. lia.
Qed.

Lemma encodeStep_nonzero (s : Step) : 1 <= encodeStep s <= 255.
Proof. pose proof (encodeStep_range s) as H. destruct (isWait s); lia. Qed.

(** *** Valid steps survive a round trip *)

Lemma valid_wait_ticks (v : Z) :
  0 <= v <= 1270 -> v mod 10 = 0 ->
  Z.min 127 (Math_floor_div (Z.max 0 (Z.min 1270 (Math_trunc v))) 10) = v / 10
  /\ 0 <= v / 10 < 128 /\ v / 10 * 10 = v.
Proof.
  intros Hr Hm. unfold Math_floor_div, Math_trunc.
  replace (Z.max 0 (Z.min 1270 v)) with v by lia.
  pose proof (Z.div_mod v 10 ltac:(lia)) as Hd.
  assert (0 <= v / 10 < 128) by (split; [apply Z.div_pos; lia|
    apply Z.div_lt_upper_bound; lia]).
  lia.
Qed.

Lemma decode_encode_step (s : Step) :
  valid_step s -> decodeByte (encodeStep s) = s.
Proof.
  unfold valid_step. destruct s as [w v]; simpl. destruct w.
  - intros [Hr Hm].
    destruct (valid_wait_ticks v Hr Hm) as (Ht & Hb & Hv).
    unfold encodeStep, decodeByte; cbn [isWait val]. rewrite Ht.
    rewrite land_lor_128_hi, land_lor_128_lo by assumption.
    cbn. now rewrite Hv.
  - intros Hr. unfold encodeStep, decodeByte, Math_trunc; cbn [isWait val].
    replace (Z.max 1 (Z.min 127 v)) with v by lia.
    rewrite land_128_small by lia. cbn [Z.eqb negb].
    replace (Z.max 1 (Z.min 127 v)) with v by lia. reflexivity.
Qed.

Lemma layout_step (s : Step) :
  valid_step s ->
  Z.testbit (encodeStep s) 7 = isWait s /\
  Z.land (encodeStep s) 0x7F = if isWait s then val s / 10 else val s.
Proof.
  unfold valid_step. destruct s as [w v]; simpl. destruct w.
  - intros [Hr Hm].
    destruct (valid_wait_ticks v Hr Hm) as (Ht & Hb & Hv).
    unfold encodeStep; cbn [isWait val]. rewrite Ht. split.
    + apply testbit7_lor_128.
    + now apply land_lor_128_lo.
  - intros Hr. unfold encodeStep, Math_trunc; cbn [isWait val].
    replace (Z.max 1 (Z.min 127 v)) with v by lia. split.
    + apply testbit7_small; lia.
    + apply land_127_small; lia.
Qed.

Lemma encodeSteps_decoded (steps : list Step) :
  Forall valid_step steps ->
  map decodeByte (map encodeStep steps) = steps.
Proof.
  induction 1 as [|s l Hs _ IH]; simpl; [reflexivity|].
  now rewrite decode_encode_step, IH.
Qed.

(** C3: a valid sequence of at most 8 steps (effect ids in 1..127, waits a
    whole multiple of 10 ms in 0..1270) is returned unchanged by the
    decoding of [doLoad] applied to the bytes of [encodeSteps]; every byte
    has bit 7 equal to the step's [isWait] flag and holds the ticks (for a
    wait) or the id (for an effect) in its low seven bits. *)
Theorem encode_decode_roundtrip (steps : list Step) :
  (length steps <= 8)%nat ->
  Forall valid_step steps ->
  uiSteps (Some (encodeSteps steps)) = steps /\
  (steps <> [] -> doLoad_steps (Some (encodeSteps steps)) = steps) /\
  Forall2 (fun s b =>
             Z.testbit b 7 = isWait s /\
             Z.land b 0x7F = if isWait s then val s / 10 else val s)
          steps (encodeSteps steps).
Proof.
  intros Hlen Hval.
  assert (Hrt : uiSteps (Some (encodeSteps steps)) = steps).
  { unfold uiSteps, slice_0_8. rewrite encodeSteps_map.
    rewrite !firstn_all2 by (rewrite ?length_map, ?length_firstn; lia).
    now apply encodeSteps_decoded. }
  split; [exact Hrt|]. split.
  - intros Hne. unfold doLoad_steps. rewrite Hrt.
    destruct steps; [contradiction|reflexivity].
  - rewrite encodeSteps_map, firstn_all2 by exact Hlen.
    clear Hlen Hrt. induction Hval as [|s l Hs _ IH]; simpl; constructor.
    + now apply layout_step.
    + exact IH.
Qed.

Lemma encode_decode_roundtrip_witness :
  let steps := [Effect 5; Wait 100; Effect 127; Wait 1270; Wait 0] in
  (length steps <= 8)%nat /\ Forall valid_step steps /\
  uiSteps (Some (encodeSteps steps)) = steps.
Proof.
  intros steps.
  assert (Hlen : (length steps <= 8)%nat) by (simpl; lia).
  assert (Hval : Forall valid_step steps).
  { repeat (apply Forall_cons;
            [unfold valid_step; cbn; repeat split; (lia || reflexivity)|]).
    apply Forall_nil. }
  split; [exact Hlen|]. split; [exact Hval|].
  exact (proj1 (encode_decode_roundtrip steps Hlen Hval)).
Defined.

(** C4, at a concrete input: one step is supplied, the byte emitted for it
    is not a terminator, the specification's encoder would append 0x00,
    and [encodeSteps] returns the single byte. *)
Lemma encodeSteps_appends_nothing :
  let steps := [Effect 1] in
  (length steps < 8)%nat /\
  encodeSequence_spec steps = [1; 0] /\
  encodeSteps steps = [1] /\
  encodeSteps steps <> encodeSequence_spec steps.
Proof. cbv. repeat split; try lia; discriminate. Qed.

(** C4, amended: [encodeSteps] encodes the first 8 steps and nothing
    else, one byte per step; it never appends a terminator, and no byte of
    its result is 0x00. *)
Theorem encodeSteps_truncates (steps : list Step) :
  encodeSteps steps = map encodeStep (firstn 8 steps) /\
  encodeSteps steps = encodeSteps (firstn 8 steps) /\
  length (encodeSteps steps) = Nat.min 8 (length steps) /\
  ~ In 0 (encodeSteps steps).
Proof.
  rewrite !encodeSteps_map. repeat split.
  - now rewrite firstn_firstn.
  - now rewrite length_map, length_firstn.
  - intros Hin. apply in_map_iff in Hin. destruct Hin as (s & Hs & _).
    pose proof (encodeStep_nonzero s). lia.
Qed.

(** C10: whatever the steps, [encodeSteps] returns at most 8 bytes, none
    of them 0x00; a wait gives a byte in 0x80..0xFF (bit 7 set, at most
    127 ticks below it) and an effect a byte in 1..127. *)
Theorem encoded_bytes_nonzero (steps : list Step) :
  (length (encodeSteps steps) <= 8)%nat /\
  Forall (fun b => b <> 0 /\ 1 <= b <= 255) (encodeSteps steps) /\
  Forall2 (fun s b =>
             if isWait s
             then 0x80 <= b <= 0xFF /\ Z.testbit b 7 = true /\
                  0 <= Z.land b 0x7F <= 127
             else 1 <= b <= 127)
          (firstn 8 steps) (encodeSteps steps).
Proof.
  rewrite !encodeSteps_map. repeat split.
  - rewrite length_map, length_firstn. lia.
  - apply Forall_forall. intros b Hin.
    apply in_map_iff in Hin. destruct Hin as (s & <- & _).
    pose proof (encodeStep_nonzero s). lia.
  - induction (firstn 8 steps) as [|s l IH]; cbn [map]; constructor;
      [|exact IH].
    pose proof (encodeStep_range s) as Hr.
    destruct (isWait s) eqn:E; [|exact Hr].
    split; [exact Hr|].
    unfold encodeStep. rewrite E.
    pose proof (wait_ticks_range (val s)) as Ht.
    rewrite testbit7_lor_128, land_lor_128_lo by exact Ht.
    split; [reflexivity|lia].
Qed.

(** X20: the front-end itself never rejects an effect id: once
    [set_library] has resolved, [applyAndPlay] calls [program_sequence]
    with the bytes of [encodeSteps], in which every effect id is clamped
    into 1..127.  The library's cap and the global cap 123 bound the
    editor's effect slider only. *)
Theorem applyAndPlay_clamps (be : backend) (libId : Z) (steps : list Step) :
  be (set_library libId) = None ->
  In (program_sequence (encodeSteps steps))
     (fst (applyAndPlay be libId steps)) /\
  Forall2 (fun s b => isWait s = false -> b = Z.max 1 (Z.min 127 (val s)))
          (firstn 8 steps) (encodeSteps steps) /\
  1 <= effect_slider_max libId <= EFFECT_ID_MAX /\
  effect_slider_max libId <= Z.max 1 (effectMax (libById libId)).
Proof.
  intros Hlib. split; [|split].
  - unfold applyAndPlay, bind, await, ret. rewrite Hlib. simpl.
    destruct (be (program_sequence (encodeSteps steps))); simpl.
    + right; left; reflexivity.
    + destruct (be play_sequence); simpl; right; left; reflexivity.
  - rewrite encodeSteps_map.
    induction (firstn 8 steps) as [|s l IH]; simpl; constructor; [|exact IH].
    intros He. now apply encodeStep_effect.
  - unfold effect_slider_max, editor_effectMax, EFFECT_ID_MAX.
    destruct (0 <? effectMax (libById libId)) eqn:E.
    + apply Z.ltb_lt in E. lia.
    + apply Z.ltb_ge in E. lia.
Qed.

Lemma applyAndPlay_clamps_witness :
  let be : backend := fun _ => None in
  let steps := [Effect 200; Wait 30; Effect 100] in
  be (set_library 6) = None /\
  In (program_sequence (encodeSteps steps)) (fst (applyAndPlay be 6 steps)).
Proof.
  intros be steps.
  assert (Hlib : be (set_library 6) = None) by reflexivity.
  split; [exact Hlib|].
  exact (proj1 (applyAndPlay_clamps be 6 steps Hlib)).
Defined.

End CodecFacts.

(* ================================================================== *)
(** ** Properties of [programSequence] *)

Module ControllerFacts.
Import Controller.

Lemma out_of_range_invalid (lib id : Z) (steps : list SequencerStep) :
  In (Effect id) steps ->
  Codec.effectMax (Codec.libById lib) < id \/ Codec.EFFECT_ID_MAX < id ->
  sequence_in_range lib steps = false.
Proof.
  intros Hin Hid. unfold sequence_in_range.
  apply andb_false_iff. right.
  apply not_true_is_false. intros Hall.
  rewrite forallb_forall in Hall. specialize (Hall _ Hin).
  cbn [effect_in_range] in Hall. apply andb_true_iff in Hall.
  destruct Hall as [H1 H2]. apply Z.leb_le in H1. apply Z.leb_le in H2. lia.
Qed.

(** C5: when the step list holds an effect whose id exceeds the cap of the
    currently selected library or the global cap 123, [programSequence]
    fails with [OutOfRange]: the id is not clamped, no write is issued on
    the bus and the device, its sequencer registers included, is as it
    was. *)
Theorem programSequence_rejects_out_of_range
        (write_ok : bool) (steps : list SequencerStep) (d : device)
        (id : Z) :
  In (Effect id) steps ->
  Codec.effectMax (Codec.libById (library d)) < id
  \/ Codec.EFFECT_ID_MAX < id ->
  programSequence write_ok steps d = (inr OutOfRange, d) /\
  bus_log (snd (programSequence write_ok steps d)) = bus_log d /\
  sequencer (snd (programSequence write_ok steps d)) = sequencer d.
Proof.
  intros Hin Hid.
  assert (H : programSequence write_ok steps d = (inr OutOfRange, d)).
  { unfold programSequence.
    now rewrite (out_of_range_invalid _ id steps Hin Hid). }
  rewrite H. repeat split.
Qed.

Lemma programSequence_rejects_out_of_range_witness :
  let d := mkDevice 1 [] [] in
  In (Effect 200) [Effect 200] /\
  (Codec.effectMax (Codec.libById (library d)) < 200
   \/ Codec.EFFECT_ID_MAX < 200) /\
  programSequence true [Effect 200] d = (inr OutOfRange, d).
Proof.
  intros d.
  assert (Hin : In (Effect 200) [Effect 200]) by (left; reflexivity).
  assert (Hid : Codec.effectMax (Codec.libById (library d)) < 200
                \/ Codec.EFFECT_ID_MAX < 200) by (left; reflexivity).
  split; [exact Hin|]. split; [exact Hid|].
  exact (proj1 (programSequence_rejects_out_of_range true [Effect 200] d 200
                  Hin Hid)).
Defined.

(** A sequence inside the caps is written: with library 1 selected, the
    steps Effect 5 and Wait 10 reach the sequencer registers, followed by
    the terminator. *)
Lemma programSequence_accepts_example :
  programSequence true [Effect 5; Wait 10] (mkDevice 1 [] []) =
  (inl tt, mkDevice 1 [5; 138; 0] [[5; 138; 0]]).
Proof. reflexivity. Qed.

End ControllerFacts.

(* ================================================================== *)
(** ** Properties of the sniffer *)

Module SnifferFacts.
Import Sniffer.

(** *** [memcmp] against the signature *)

Lemma to_N_inj (a b : byte) : Byte.to_N a = Byte.to_N b -> a = b.
Proof.
  intros H. pose proof (Byte.of_to_N a) as Ha.
  rewrite H, Byte.of_to_N in Ha. congruence.
Qed.

Lemma cmp_bytes_eq (s1 s2 : list byte) :
  length s1 = length s2 -> (cmp_bytes s1 s2 = 0 <-> s1 = s2).
Proof.
  revert s2; induction s1 as [|a s1 IH]; intros [|b s2] Hlen;
    simpl in *; try discriminate.
  - tauto.
  - destruct (Byte.eqb a b) eqn:E.
    + apply Byte.byte_dec_bl in E. subst b.
      rewrite IH by congruence. split; congruence.
    + apply Byte.eqb_false in E. split.
      * intros H. exfalso. apply E, to_N_inj, N2Z.inj. lia.
      * congruence.
Qed.

Lemma list_byte_eqb_eq (a b : list byte) : list_byte_eqb a b = true <-> a = b.
Proof.
  unfold list_byte_eqb. destruct (list_eq_dec Byte.byte_eq_dec a b); split;
    congruence.
Qed.

Lemma signature_length : length signature = 8%nat.
Proof. reflexivity. Qed.

Lemma occurs_at_eq (s : list byte) (i : nat) :
  occurs_at s i = true <-> firstn 8 (skipn i s) = signature.
Proof. apply list_byte_eqb_eq. Qed.

(** An occurrence has all of its 8 bytes inside the string. *)
Lemma occurs_at_inside (s : list byte) (i : nat) :
  occurs_at s i = true -> (i + 8 <= length s)%nat.
Proof.
  intros H. apply occurs_at_eq in H.
  apply (f_equal (@length byte)) in H.
  rewrite length_firstn, length_skipn, signature_length in H. lia.
Qed.

Lemma window_app (chunk rest : list byte) (i : nat) :
  (i + 8 <= length chunk)%nat ->
  firstn 8 (skipn i (chunk ++ rest)) = firstn 8 (skipn i chunk).
Proof.
  intros H. rewrite skipn_app, firstn_app, length_skipn.
  replace (8 - (length chunk - i))%nat with 0%nat by lia.
  simpl. apply app_nil_r.
Qed.

Lemma memcmp_signature (buffer : list byte) (i : nat) :
  (i + 8 <= length buffer)%nat ->
  exists c, memcmp (skipn i buffer) PATTERN 8 = Some c /\
            (c =? 0) = occurs_at buffer i.
Proof.
  intros H. unfold memcmp.
  replace (8 <=? length (skipn i buffer))%nat with true
    by (symmetry; apply Nat.leb_le; rewrite length_skipn; lia).
  change (8 <=? length PATTERN)%nat with true. cbn [andb].
  eexists; split; [reflexivity|].
  change (firstn 8 PATTERN) with signature.
  apply eq_true_iff_eq. rewrite Z.eqb_eq, occurs_at_eq.
  apply cmp_bytes_eq. rewrite length_firstn, length_skipn, signature_length.
  lia.
Qed.

(** *** The scan of one chunk *)

(** With the chunk at the start of the buffer, one iteration fires exactly
    when the signature sits at [i] inside the chunk; what follows the
    chunk in the buffer plays no role. *)
Lemma scan_at_chunk (bus : nat -> Z) (chunk stale : list byte) (i : nat)
      (w : world) :
  scan_at bus (chunk ++ stale) (Z.of_nat (length chunk)) i w =
  Some (if occurs_at chunk i then fire bus i w else w).
Proof.
  unfold scan_at.
  destruct (Z.of_nat i + 7 <? Z.of_nat (length chunk)) eqn:G.
  - apply Z.ltb_lt in G.
    assert (Hin : (i + 8 <= length chunk)%nat) by lia.
    destruct (memcmp_signature (chunk ++ stale) i) as (c & Hc & Hz).
    { rewrite length_app. lia. }
    rewrite Hc, Hz. unfold occurs_at. rewrite window_app by exact Hin.
    now destruct (list_byte_eqb _ _).
  - apply Z.ltb_ge in G.
    destruct (occurs_at chunk i) eqn:O; [|reflexivity].
    apply occurs_at_inside in O. lia.
Qed.

Lemma for_loop_chunk (bus : nat -> Z) (chunk stale : list byte)
      (todo : list nat) (w : world) :
  for_loop bus (chunk ++ stale) (Z.of_nat (length chunk)) todo w =
  Some (fires bus (filter (occurs_at chunk) todo) w).
Proof.
  revert w; induction todo as [|i todo IH]; intros w; simpl; [reflexivity|].
  rewrite scan_at_chunk.
  destruct (occurs_at chunk i); simpl; apply IH.
Qed.

(** The loop of [main] behaves as [run], whatever the buffer holds. *)
Lemma main_loop_run (bus : nat -> Z) (feed : list feed_item)
      (buffer : list byte) (w : world) :
  main_loop bus feed buffer w = run bus feed w.
Proof.
  revert buffer w; induction feed as [|it feed IH]; intros buffer w;
    simpl; [reflexivity|].
  unfold sys_read. destruct (result it) as [|d]; simpl; [reflexivity|].
  replace (Z.of_nat (length d) =? -1) with false
    by (symmetry; apply Z.eqb_neq; lia).
  rewrite Nat2Z.id, for_loop_chunk. apply IH.
Qed.

Lemma main_run (e : env) (stack : list byte) :
  startup_ok e = true ->
  main e stack =
  run (bus e) (feed e) started.
Proof.
  unfold startup_ok, main. intros H.
  apply andb_true_iff in H. destruct H as [H H3].
  apply andb_true_iff in H. destruct H as [H1 H2].
  rewrite H1, H2, H3. simpl. apply main_loop_run.
Qed.

(** *** What one [fire] adds to the world *)

Lemma log_fire (bus : nat -> Z) (i : nat) (w : world) :
  log (fire bus i w) =
  log w ++ [ (clock w, Printf (PatternFound i))
           ; (clock w, I2CWrite (slave w) data_to_send)
           ; (clock w, send_report bus (n_writes w))
           ; (clock w, Usleep 10000) ].
Proof.
  unfold fire, usleep, send_i2c_signal, sys_write, send_report, write_fails.
  cbn [emit clock slave n_reads n_writes log length data_to_send Z.of_nat
       Pos.of_succ_nat Pos.succ].
  destruct (negb (bus (n_writes w) =? 2)); cbn [emit clock log];
    rewrite <- !app_assoc; reflexivity.
Qed.

Lemma fire_fields (bus : nat -> Z) (i : nat) (w : world) :
  clock (fire bus i w) = clock w + 10000 /\
  slave (fire bus i w) = slave w /\
  n_reads (fire bus i w) = n_reads w /\
  n_writes (fire bus i w) = S (n_writes w).
Proof.
  unfold fire, usleep, send_i2c_signal, sys_write.
  cbn [emit clock slave n_reads n_writes log].
  destruct (negb _); repeat split; reflexivity.
Qed.

Lemma reported_fire bus i w : reported (fire bus i w) = reported w ++ [i].
Proof.
  unfold reported. rewrite log_fire, flat_map_app. f_equal.
  unfold send_report. destruct (write_fails _ _); reflexivity.
Qed.

Lemma bus_writes_fire bus i w :
  bus_writes (fire bus i w) = bus_writes w ++ [(slave w, data_to_send)].
Proof.
  unfold bus_writes. rewrite log_fire, flat_map_app. f_equal.
  unfold send_report. destruct (write_fails _ _); reflexivity.
Qed.

Lemma fire_times_fire bus i w :
  fire_times (fire bus i w) = fire_times w ++ [clock w].
Proof.
  unfold fire_times. rewrite log_fire, flat_map_app. f_equal.
  unfold send_report. destruct (write_fails _ _); reflexivity.
Qed.

Lemma send_errors_fire bus i w :
  send_errors (fire bus i w) =
  (send_errors w + if write_fails bus (n_writes w) then 1 else 0)%nat.
Proof.
  unfold send_errors. rewrite log_fire, flat_map_app, length_app. f_equal.
  unfold send_report. destruct (write_fails _ _); reflexivity.
Qed.

(** *** A chunk's worth of fires *)

Lemma fires_cons bus i l w : fires bus (i :: l) w = fires bus l (fire bus i w).
Proof. reflexivity. Qed.

Lemma fires_fields bus l w :
  slave (fires bus l w) = slave w /\
  n_reads (fires bus l w) = n_reads w /\
  n_writes (fires bus l w) = (n_writes w + length l)%nat /\
  clock w <= clock (fires bus l w).
Proof.
  revert w; induction l as [|i l IH]; intros w.
  - simpl. repeat split; lia.
  - rewrite fires_cons.
    destruct (IH (fire bus i w)) as (H1 & H2 & H3 & H4).
    destruct (fire_fields bus i w) as (F1 & F2 & F3 & F4).
    rewrite H1, H2, H3, F2, F3, F4. simpl. repeat split; lia.
Qed.

Lemma reported_fires bus l w : reported (fires bus l w) = reported w ++ l.
Proof.
  revert w; induction l as [|i l IH]; intros w.
  - simpl. now rewrite app_nil_r.
  - rewrite fires_cons, IH, reported_fire, <- app_assoc. reflexivity.
Qed.

Lemma bus_writes_fires bus l w :
  bus_writes (fires bus l w) =
  bus_writes w ++ repeat (slave w, data_to_send) (length l).
Proof.
  revert w; induction l as [|i l IH]; intros w.
  - simpl. now rewrite app_nil_r.
  - rewrite fires_cons, IH, bus_writes_fire, <- app_assoc.
    destruct (fire_fields bus i w) as (_ & -> & _). reflexivity.
Qed.

Lemma send_errors_fires bus l w :
  send_errors (fires bus l w) =
  (send_errors w +
   length (filter (write_fails bus) (seq (n_writes w) (length l))))%nat.
Proof.
  revert w; induction l as [|i l IH]; intros w.
  - simpl. lia.
  - rewrite fires_cons, IH, send_errors_fire.
    destruct (fire_fields bus i w) as (_ & _ & _ & ->). simpl.
    destruct (write_fails bus (n_writes w)); simpl; lia.
Qed.

Lemma length_fire_times_fires bus l w :
  length (fire_times (fires bus l w)) = (length (fire_times w) + length l)%nat.
Proof.
  revert w; induction l as [|i l IH]; intros w.
  - simpl. lia.
  - rewrite fires_cons, IH, fire_times_fire, length_app. simpl. lia.
Qed.

(** *** The cool-down as an invariant *)

Lemma spaced_snoc (d : Z) (ts : list Z) (t : Z) :
  spaced d ts -> Forall (fun t' => t' + d <= t) ts -> spaced d (ts ++ [t]).
Proof.
  induction ts as [|t1 ts IH]; intros Hs Hf; [exact I|].
  inversion Hf as [|? ? H1 Hf']; subst.
  destruct ts as [|t2 ts]; simpl.
  - split; [exact H1|exact I].
  - destruct Hs as [H12 Hs]. split; [exact H12|]. apply IH; assumption.
Qed.

Lemma cool_later (d : Z) (w w' : world) :
  fire_times w' = fire_times w -> clock w <= clock w' ->
  cool d w -> cool d w'.
Proof.
  unfold cool. intros -> Hc [Hs Hf]. split; [exact Hs|].
  eapply Forall_impl; [|exact Hf]. simpl. intros; lia.
Qed.

Lemma cool_fire bus i w : cool 10000 w -> cool 10000 (fire bus i w).
Proof.
  unfold cool. intros [Hs Hf]. rewrite fire_times_fire.
  destruct (fire_fields bus i w) as (-> & _). split.
  - now apply spaced_snoc.
  - apply Forall_app. split.
    + eapply Forall_impl; [|exact Hf]. simpl. intros; lia.
    + constructor; [lia|constructor].
Qed.

Lemma cool_fires bus l w : cool 10000 w -> cool 10000 (fires bus l w).
Proof.
  revert w; induction l as [|i l IH]; intros w H; [exact H|].
  rewrite fires_cons. apply IH, cool_fire, H.
Qed.

(** *** Whole runs *)

Lemma run_final bus feed w : final (run bus feed w) = Some (run_world bus feed w).
Proof.
  revert w; induction feed as [|it feed IH]; intros w; simpl; [reflexivity|].
  destruct (result it); [reflexivity|apply IH].
Qed.

Lemma run_feed_of bus timed w :
  run bus (feed_of timed) w = Blocked (run_world bus (feed_of timed) w).
Proof.
  revert w; induction timed as [|tc timed IH]; intros w; simpl;
    [reflexivity|apply IH].
Qed.

Lemma run_read_fail bus timed it rest w :
  result it = ReadFail ->
  run bus (feed_of timed ++ it :: rest) w =
  Exited 1 (run_world bus (feed_of timed ++ [it]) w).
Proof.
  intros Hf. revert w; induction timed as [|tc timed IH]; intros w; simpl.
  - now rewrite Hf.
  - apply IH.
Qed.

Lemma chunks_read_feed_of timed : chunks_read (feed_of timed) = map snd timed.
Proof. induction timed as [|tc timed IH]; simpl; [|rewrite IH]; reflexivity. Qed.

Lemma reads_made_feed_of timed : reads_made (feed_of timed) = length timed.
Proof. induction timed as [|tc timed IH]; simpl; [|rewrite IH]; reflexivity. Qed.

Lemma reads_made_fail timed it :
  result it = ReadFail -> reads_made (feed_of timed ++ [it]) = S (length timed).
Proof.
  intros Hf. induction timed as [|tc timed IH]; simpl.
  - now rewrite Hf.
  - now rewrite IH.
Qed.

Lemma bail_fields w :
  slave (bail w) = slave w /\ n_reads (bail w) = n_reads w /\
  n_writes (bail w) = n_writes w /\ clock (bail w) = clock w /\
  reported (bail w) = reported w /\ bus_writes (bail w) = bus_writes w /\
  fire_times (bail w) = fire_times w /\ send_errors (bail w) = send_errors w.
Proof.
  unfold bail, reported, bus_writes, fire_times, send_errors, emit.
  cbn [clock slave n_reads n_writes log].
  rewrite <- !app_assoc, !flat_map_app. cbn [flat_map snd app].
  rewrite !app_nil_r. repeat split; reflexivity.
Qed.

Lemma run_world_counts bus feed w :
  slave (run_world bus feed w) = slave w /\
  n_reads (run_world bus feed w) = (n_reads w + reads_made feed)%nat /\
  n_writes (run_world bus feed w) = (n_writes w + length (matches feed))%nat.
Proof.
  unfold matches.
  revert w; induction feed as [|it feed IH]; intros w;
    cbn [run_world chunks_read reads_made flat_map length].
  - simpl. repeat split; lia.
  - destruct (result it) as [|d]; cbn [flat_map length].
    + destruct (bail_fields (tick it w)) as (-> & -> & -> & _).
      simpl. repeat split; lia.
    + destruct (IH (fires bus (occurrences d) (tick it w))) as (-> & -> & ->).
      destruct (fires_fields bus (occurrences d) (tick it w))
        as (-> & -> & -> & _).
      rewrite length_app. simpl. repeat split; lia.
Qed.

Lemma run_world_reported bus feed w :
  reported (run_world bus feed w) = reported w ++ matches feed.
Proof.
  unfold matches.
  revert w; induction feed as [|it feed IH]; intros w;
    cbn [run_world chunks_read reads_made flat_map length].
  - simpl. now rewrite app_nil_r.
  - destruct (result it) as [|d]; cbn [flat_map length].
    + destruct (bail_fields (tick it w)) as (_ & _ & _ & _ & -> & _).
      now rewrite app_nil_r.
    + rewrite IH, reported_fires, <- app_assoc. reflexivity.
Qed.

Lemma run_world_bus_writes bus feed w :
  bus_writes (run_world bus feed w) =
  bus_writes w ++ repeat (slave w, data_to_send) (length (matches feed)).
Proof.
  unfold matches.
  revert w; induction feed as [|it feed IH]; intros w;
    cbn [run_world chunks_read reads_made flat_map length].
  - simpl. now rewrite app_nil_r.
  - destruct (result it) as [|d]; cbn [flat_map length].
    + destruct (bail_fields (tick it w)) as (_ & _ & _ & _ & _ & -> & _).
      now rewrite app_nil_r.
    + rewrite IH, bus_writes_fires, <- app_assoc, length_app, repeat_app.
      destruct (fires_fields bus (occurrences d) (tick it w)) as (-> & _).
      reflexivity.
Qed.

Lemma run_world_send_errors bus feed w :
  send_errors (run_world bus feed w) =
  (send_errors w +
   length (filter (write_fails bus)
                  (seq (n_writes w) (length (matches feed)))))%nat.
Proof.
  unfold matches.
  revert w; induction feed as [|it feed IH]; intros w;
    cbn [run_world chunks_read reads_made flat_map length].
  - simpl. lia.
  - destruct (result it) as [|d]; cbn [flat_map length].
    + destruct (bail_fields (tick it w)) as (_ & _ & _ & _ & _ & _ & _ & ->).
      unfold send_errors, tick. simpl. lia.
    + rewrite IH, send_errors_fires, length_app, seq_app, filter_app,
        length_app.
      destruct (fires_fields bus (occurrences d) (tick it w))
        as (_ & _ & -> & _).
      change (send_errors (tick it w)) with (send_errors w).
      change (n_writes (tick it w)) with (n_writes w). lia.
Qed.

Lemma run_world_fire_times bus feed w :
  length (fire_times (run_world bus feed w)) =
  (length (fire_times w) + length (matches feed))%nat /\
  (cool 10000 w -> cool 10000 (run_world bus feed w)).
Proof.
  unfold matches.
  revert w; induction feed as [|it feed IH]; intros w;
    cbn [run_world chunks_read reads_made flat_map length].
  - simpl. split; [lia|tauto].
  - assert (Ht : cool 10000 w -> cool 10000 (tick it w)).
    { apply cool_later; [reflexivity|simpl; lia]. }
    destruct (result it) as [|d]; cbn [flat_map length].
    + destruct (bail_fields (tick it w))
        as (_ & _ & _ & Hc & _ & _ & Hf & _).
      rewrite Hf. change (fire_times (tick it w)) with (fire_times w).
      split; [cbn [length]; lia|].
      intros H. apply (cool_later _ (tick it w)); [exact Hf|lia|auto].
    + destruct (IH (fires bus (occurrences d) (tick it w))) as [Hl Hc].
      rewrite Hl, length_fire_times_fires, length_app.
      change (fire_times (tick it w)) with (fire_times w). split; [lia|].
      intros H. apply Hc, cool_fires, Ht, H.
Qed.

(** *** [main] *)

Lemma started_fields :
  slave started = I2C_ADDR /\ n_reads started = 0%nat /\
  n_writes started = 0%nat /\ reported started = [] /\
  bus_writes started = [] /\ fire_times started = [] /\
  send_errors started = 0%nat /\ cool 10000 started.
Proof. repeat split; try reflexivity; constructor. Qed.

(** Either start-up succeeds and [main] is the loop, or it exits at once
    without having touched the feed or the bus. *)
Lemma main_cases (e : env) (stack : list byte) :
  (startup_ok e = true /\ main e stack = run (bus e) (feed e) started) \/
  (startup_ok e = false /\
   exists w, main e stack = Exited 1 w /\ n_reads w = 0%nat /\
             reported w = [] /\ bus_writes w = [] /\ fire_times w = []).
Proof.
  destruct (startup_ok e) eqn:S.
  - left. split; [reflexivity|]. now apply main_run.
  - right. split; [reflexivity|]. unfold startup_ok in S. unfold main.
    destruct (open_usbmon_ok e); simpl in *;
      [|eexists; repeat split; reflexivity].
    destruct (open_i2c_ok e); simpl in *;
      [|eexists; repeat split; reflexivity].
    rewrite S. simpl. eexists; repeat split; reflexivity.
Qed.

(** *** Occurrences in the stream and in its chunks *)

Lemma seq_from (base n : nat) : seq base n = map (Nat.add base) (seq 0 n).
Proof.
  revert base; induction n as [|n IH]; intros base; [reflexivity|].
  cbn [seq map]. rewrite Nat.add_0_r. f_equal.
  rewrite (IH (S base)), <- (seq_shift n 0), map_map.
  apply map_ext. intros; lia.
Qed.

Lemma filter_twice {A : Type} (f g : A -> bool) (l : list A) :
  filter f (filter g l) = filter (fun x => f x && g x) l.
Proof.
  induction l as [|a l IH]; simpl; [reflexivity|].
  destruct (g a); simpl; rewrite ?andb_false_r, ?andb_true_r.
  - destruct (f a); now rewrite IH.
  - exact IH.
Qed.

Lemma hosted_from (base p : nat) (chunks : list (list byte)) :
  hosted base p chunks = true -> (base <= p)%nat.
Proof.
  revert base; induction chunks as [|c cs IH]; intros base; simpl;
    [discriminate|].
  intros H. apply orb_true_iff in H. destruct H as [H|H].
  - apply andb_true_iff in H. destruct H as [H _]. now apply Nat.leb_le.
  - apply IH in H. lia.
Qed.

Lemma occurs_at_after (pre s : list byte) (j : nat) :
  occurs_at (pre ++ s) (length pre + j) = occurs_at s j.
Proof.
  unfold occurs_at. rewrite skipn_app.
  rewrite skipn_all2 by lia.
  replace (length pre + j - length pre)%nat with j by lia. reflexivity.
Qed.

(** Inside the first chunk: hosted occurrences of the stream are the
    occurrences of the chunk. *)
Lemma hosted_first (pre c : list byte) (cs : list (list byte)) (j : nat) :
  (j < length c)%nat ->
  hosted (length pre) (length pre + j) (c :: cs)
  && occurs_at (pre ++ concat (c :: cs)) (length pre + j)
  = occurs_at c j.
Proof.
  intros Hj. cbn [hosted concat]. rewrite occurs_at_after.
  replace (hosted (length pre + length c) (length pre + j) cs) with false.
  2:{ symmetry. apply not_true_is_false. intros H.
      apply hosted_from in H. lia. }
  rewrite orb_false_r.
  replace (length pre <=? length pre + j)%nat with true
    by (symmetry; apply Nat.leb_le; lia).
  cbn [andb].
  destruct (length pre + j + 8 <=? length pre + length c)%nat eqn:E.
  - apply Nat.leb_le in E. cbn [andb]. unfold occurs_at.
    rewrite window_app by lia. reflexivity.
  - apply Nat.leb_gt in E. cbn [andb].
    destruct (occurs_at c j) eqn:O; [|reflexivity].
    apply occurs_at_inside in O. lia.
Qed.

(** Behind the first chunk: it hosts nothing. *)
Lemma hosted_rest (base q : nat) (c : list byte) (cs : list (list byte)) :
  (base + length c <= q)%nat ->
  hosted base q (c :: cs) = hosted (base + length c) q cs.
Proof.
  intros Hq. cbn [hosted].
  replace (q + 8 <=? base + length c)%nat with false
    by (symmetry; apply Nat.leb_gt; lia).
  now rewrite andb_false_r.
Qed.

Lemma matches_hosted_from (chunks : list (list byte)) (pre : list byte) :
  length (flat_map occurrences chunks) =
  length (filter (fun q => hosted (length pre) q chunks
                           && occurs_at (pre ++ concat chunks) q)
                 (seq (length pre) (length (concat chunks)))).
Proof.
  revert pre; induction chunks as [|c cs IH]; intros pre; [reflexivity|].
  cbn [flat_map concat].
  rewrite !length_app, seq_app, filter_app, length_app. f_equal.
  - rewrite seq_from, filter_map_swap, length_map. unfold occurrences.
    f_equal. apply filter_ext_in. intros j Hj. apply in_seq in Hj.
    symmetry. apply (hosted_first pre c cs j). lia.
  - rewrite (IH (pre ++ c)), length_app. f_equal.
    apply filter_ext_in. intros q Hq. apply in_seq in Hq.
    rewrite hosted_rest by lia. now rewrite <- app_assoc.
Qed.

(** The scan reports as many matches as the stream has occurrences that
    lie wholly inside one chunk. *)
Lemma matches_hosted (chunks : list (list byte)) :
  length (flat_map occurrences chunks) =
  length (filter (fun p => hosted 0 p chunks) (occurrences (concat chunks))).
Proof.
  rewrite (matches_hosted_from chunks []). unfold occurrences.
  now rewrite filter_twice.
Qed.

(** *** Runs of [main] *)

Lemma scanned_ok (e : env) :
  startup_ok e = true -> flat_map occurrences (scanned e) = matches (feed e).
Proof. unfold scanned, matches. now intros ->. Qed.

Lemma scanned_not_ok (e : env) : startup_ok e = false -> scanned e = [].
Proof. unfold scanned. now intros ->. Qed.

Lemma events_bail (w : world) :
  events (bail w) =
  events w ++ [ Perror "Error reading from usbmon"
              ; Close usbmon_fd ; Close i2c_fd ].
Proof.
  unfold events, bail, emit. cbn [log].
  rewrite !map_app, <- !app_assoc. reflexivity.
Qed.

Lemma run_world_fail bus timed it w :
  result it = ReadFail ->
  run_world bus (feed_of timed ++ [it]) w =
  bail (tick it (run_world bus (feed_of timed) w)).
Proof.
  intros Hf. revert w; induction timed as [|tc timed IH]; intros w; simpl.
  - now rewrite Hf.
  - apply IH.
Qed.

(** *** The trigger engine *)

(** C1, at a concrete input: the stream is the signature alone, so it holds
    exactly one occurrence; it is delivered in two chunks of 4 bytes, the
    cut falling inside the signature; no match is reported and nothing is
    written on the bus. *)
Lemma split_signature_is_missed :
  let chunks := [firstn 4 signature; skipn 4 signature] in
  let e := all_ok [(0, firstn 4 signature); (0, skipn 4 signature)] in
  scanned e = chunks /\
  occurrences (concat chunks) = [0%nat] /\
  option_map reported (final (main e [])) = Some [] /\
  option_map bus_writes (final (main e [])) = Some [] /\
  option_map (fun w => length (reported w)) (final (main e [])) <> Some 1%nat.
Proof. vm_compute. repeat split; try reflexivity. discriminate. Qed.

(** C1, amended: when the scanned stream holds exactly one occurrence of
    the signature, the scan reports exactly one match if that occurrence
    lies wholly inside one chunk, and none if a cut falls inside it; the
    bytes of one chunk are never joined to those of the next. *)
Theorem scan_reports_hosted_occurrence
        (e : env) (stack : list byte) (p : nat) :
  occurrences (concat (scanned e)) = [p] ->
  exists w, final (main e stack) = Some w /\
            length (reported w) =
            (if hosted 0 p (scanned e) then 1 else 0)%nat.
Proof.
  intros Hone.
  destruct (main_cases e stack) as [[Hok Hmain]|[Hno _]].
  - rewrite Hmain, run_final. eexists; split; [reflexivity|].
    rewrite run_world_reported, <- scanned_ok by exact Hok.
    destruct started_fields as (_ & _ & _ & -> & _). cbn [app].
    rewrite matches_hosted, Hone. cbn [filter].
    now destruct (hosted 0 p (scanned e)).
  - rewrite scanned_not_ok in Hone by exact Hno. discriminate.
Qed.

Lemma scan_reports_hosted_occurrence_witness :
  let e := all_ok [(0, x00 :: signature); (7, [x01])] in
  occurrences (concat (scanned e)) = [1%nat] /\
  exists w, final (main e []) = Some w /\
            length (reported w) =
            (if hosted 0 1 (scanned e) then 1 else 0)%nat.
Proof.
  intros e.
  assert (Hone : occurrences (concat (scanned e)) = [1%nat])
    by (vm_compute; reflexivity).
  split; [exact Hone|].
  exact (scan_reports_hosted_occurrence e [] 1%nat Hone).
Defined.

(** C2: in every run, the bus transactions are exactly one write of the
    two bytes 0x0C 0x01 to the slave address 0x5a per reported match, and
    the reported matches are the occurrences of the signature inside the
    chunks read. *)
Theorem trigger_action_is_go (e : env) (stack : list byte) :
  exists w, final (main e stack) = Some w /\
            reported w = flat_map occurrences (scanned e) /\
            bus_writes w = repeat (I2C_ADDR, [x0c; x01]) (length (reported w)).
Proof.
  destruct (main_cases e stack) as [[Hok Hmain]|[Hno (w & Hw & _ & Hr & Hb & _)]].
  - rewrite Hmain, run_final. eexists; split; [reflexivity|].
    rewrite run_world_reported, run_world_bus_writes, scanned_ok by exact Hok.
    destruct started_fields as (-> & _ & _ & -> & -> & _).
    cbn [app]. split; reflexivity.
  - exists w. rewrite Hw, Hr, Hb, scanned_not_ok by exact Hno.
    repeat split; reflexivity.
Qed.

(** C6: when a read of the monitor feed fails, [main] returns 1 after
    logging the failure and closing both files; it has made exactly the
    reads up to and including the failing one, and what the feed would
    have delivered afterwards plays no role. *)
Theorem read_fault_exits (e : env) (stack : list byte)
        (timed : list (Z * list byte)) (it : feed_item)
        (rest : list feed_item) :
  startup_ok e = true ->
  feed e = feed_of timed ++ it :: rest ->
  result it = ReadFail ->
  exists w, main e stack = Exited 1 w /\
            n_reads w = S (length timed) /\
            (exists before,
                events w = before ++ [ Perror "Error reading from usbmon"
                                     ; Close usbmon_fd ; Close i2c_fd ]) /\
            main (with_feed e (feed_of timed ++ [it])) stack = main e stack.
Proof.
  intros Hok Hfeed Hfail.
  rewrite (main_run e stack Hok), Hfeed, run_read_fail by exact Hfail.
  eexists; split; [reflexivity|]. split; [|split].
  - destruct (run_world_counts (bus e) (feed_of timed ++ [it]) started)
      as (_ & -> & _).
    rewrite reads_made_fail by exact Hfail. reflexivity.
  - rewrite run_world_fail, events_bail by exact Hfail.
    eexists; reflexivity.
  - rewrite main_run by exact Hok. cbn [with_feed feed bus].
    now apply run_read_fail.
Qed.

Lemma read_fault_exits_witness :
  let it := mkItem 20 ReadFail in
  let e := mkEnv true true true
             (feed_of [(0, signature)] ++ it :: feed_of [(30, signature)])
             (fun _ => 2) in
  exists w, main e [] = Exited 1 w /\ n_reads w = 2%nat.
Proof.
  intros it e.
  destruct (read_fault_exits e [] [(0, signature)] it
              (feed_of [(30, signature)]) eq_refl eq_refl eq_refl)
    as (w & Hw & Hn & _).
  exists w. split; [exact Hw|exact Hn].
Defined.

(** C7: whatever the writes on the bus return, a feed that does not fail
    is read to its end and the process is then still waiting in [read]:
    every chunk is scanned, every match is reported and signalled, and
    each failed write is logged once. *)
Theorem send_failure_keeps_scanning (e : env) (stack : list byte)
        (timed : list (Z * list byte)) :
  startup_ok e = true ->
  feed e = feed_of timed ->
  exists w, main e stack = Blocked w /\
            n_reads w = length timed /\
            reported w = flat_map occurrences (map snd timed) /\
            n_writes w = length (reported w) /\
            length (bus_writes w) = length (reported w) /\
            send_errors w =
            length (filter (write_fails (bus e)) (seq 0 (n_writes w))).
Proof.
  intros Hok Hfeed.
  rewrite (main_run e stack Hok), Hfeed, run_feed_of.
  eexists; split; [reflexivity|].
  destruct (run_world_counts (bus e) (feed_of timed) started)
    as (_ & Hr & Hw).
  rewrite Hr, Hw, run_world_reported, run_world_bus_writes,
    run_world_send_errors, reads_made_feed_of.
  unfold matches. rewrite chunks_read_feed_of.
  destruct started_fields as (_ & -> & -> & -> & -> & _ & -> & _).
  cbn [app Nat.add]. rewrite repeat_length. repeat split; reflexivity.
Qed.

Lemma send_failure_keeps_scanning_witness :
  let e := mkEnv true true true
             (feed_of [(0, signature); (5, signature ++ signature)])
             (fun _ => -1) in
  exists w, main e [] = Blocked w /\ n_reads w = 2%nat /\
            send_errors w = 3%nat.
Proof.
  intros e.
  destruct (send_failure_keeps_scanning e []
              [(0, signature); (5, signature ++ signature)]
              eq_refl eq_refl)
    as (w & Hw & Hn & Hrep & Hnw & _ & Herr).
  exists w. split; [exact Hw|]. split; [exact Hn|].
  rewrite Herr, Hnw, Hrep. reflexivity.
Defined.

(** C8, at a concrete input: three matches with data arriving at 0 ms,
    5 ms and 11 ms; all three are signalled, at 0 ms, 10 ms and 20 ms: the
    second is delayed by the sleep, not dropped. *)
Lemma cool_down_drops_nothing :
  let e := all_ok [(0, signature); (5000, signature); (11000, signature)] in
  option_map fire_times (final (main e [])) = Some [0; 10000; 20000] /\
  option_map (fun w => length (bus_writes w)) (final (main e [])) = Some 3%nat /\
  option_map fire_times (final (main e [])) <> Some [0; 11000].
Proof. vm_compute. repeat split; try reflexivity. discriminate. Qed.

(** C8, amended: the 10 ms cool-down is a sleep after every signalled
    match; no match is dropped (there are as many bus writes as matches)
    and consecutive bus writes are at least 10 ms apart. *)
Theorem every_match_fires_after_sleep (e : env) (stack : list byte) :
  exists w, final (main e stack) = Some w /\
            length (fire_times w) = length (flat_map occurrences (scanned e)) /\
            length (bus_writes w) = length (flat_map occurrences (scanned e)) /\
            spaced 10000 (fire_times w).
Proof.
  destruct (main_cases e stack)
    as [[Hok Hmain]|[Hno (w & Hw & _ & _ & Hb & Hf)]].
  - rewrite Hmain, run_final. eexists; split; [reflexivity|].
    destruct (run_world_fire_times (bus e) (feed e) started) as [Hl Hc].
    rewrite Hl, run_world_bus_writes, scanned_ok by exact Hok.
    destruct started_fields as (_ & _ & _ & _ & -> & -> & _ & Hcool).
    cbn [app length Nat.add]. rewrite repeat_length.
    repeat split. apply Hc, Hcool.
  - exists w. rewrite Hw, Hb, Hf, scanned_not_ok by exact Hno.
    repeat split; reflexivity.
Qed.

(** C9: the scan of a chunk of n bytes compares only inside the chunk.
    It is defined even when the buffer holds nothing beyond the chunk, it
    does not depend on what the buffer holds beyond the chunk, and every
    position i it reports has i + 7 < n and the whole signature inside
    the chunk. *)
Theorem scan_stays_inside_chunk (bus : nat -> Z) (chunk stale : list byte)
        (w : world) :
  let n := Z.of_nat (length chunk) in
  let todo := seq 0 (length chunk) in
  (exists w', for_loop bus chunk n todo w = Some w' /\
              reported w' = reported w ++ occurrences chunk) /\
  for_loop bus (chunk ++ stale) n todo w = for_loop bus chunk n todo w /\
  (forall i, In i (occurrences chunk) ->
             Z.of_nat i + 7 < n /\ firstn 8 (skipn i chunk) = signature) /\
  (forall i w0, n <= Z.of_nat i + 7 ->
                scan_at bus (chunk ++ stale) n i w0 = Some w0).
Proof.
  intros n todo. subst n todo.
  assert (Hnil : for_loop bus chunk (Z.of_nat (length chunk))
                          (seq 0 (length chunk)) w =
                 Some (fires bus (occurrences chunk) w)).
  { pose proof (for_loop_chunk bus chunk [] (seq 0 (length chunk)) w) as H.
    now rewrite app_nil_r in H. }
  split; [|split; [|split]].
  - eexists; split; [exact Hnil|]. apply reported_fires.
  - now rewrite Hnil, for_loop_chunk.
  - intros i Hi. apply filter_In in Hi. destruct Hi as [_ Hi].
    split.
    + apply occurs_at_inside in Hi. lia.
    + now apply occurs_at_eq.
  - intros i w0 Hi. unfold scan_at.
    replace (Z.of_nat i + 7 <? Z.of_nat (length chunk)) with false
      by (symmetry; apply Z.ltb_ge; lia).
    reflexivity.
Qed.

End SnifferFacts.

(* ================================================================== *)
(** ** More on the sequencer editor *)

Module EditorFacts.
Import Codec CodecFacts.

Lemma land_127_range (b : Z) : 0 <= Z.land b 127 < 128.
Proof.
  change 127 with (Z.ones 7). rewrite Z.land_ones by lia.
  apply Z.mod_pos_bound. reflexivity.
Qed.

Lemma decodeByte_valid (b : Z) : valid_step (decodeByte b).
Proof.
  unfold decodeByte, valid_step.
  destruct (negb (Z.land b 128 =? 0)); cbn [isWait val].
  - pose proof (land_127_range b). split; [lia|].
    apply Z.mod_mul. lia.
  - lia.
Qed.

Lemma high_byte (b : Z) :
  128 <= b <= 255 -> Z.land b 128 = 128 /\ Z.land b 127 = b - 128.
Proof.
  intros Hb. replace b with (Z.lor 128 (b - 128)) at 1 2
    by (rewrite lor_128_small; lia).
  rewrite land_lor_128_hi, land_lor_128_lo by lia. split; reflexivity.
Qed.

Lemma encode_decode_byte (b : Z) :
  1 <= b <= 255 -> encodeStep (decodeByte b) = b.
Proof.
  intros Hb. unfold decodeByte.
  destruct (Z_lt_le_dec b 128) as [Hlo|Hhi].
  - rewrite land_128_small by lia. cbn [Z.eqb negb].
    rewrite encodeStep_effect by reflexivity. cbn [val]. lia.
  - destruct (high_byte b) as [H1 H2]; [lia|].
    rewrite H1, H2. cbn [Z.eqb negb].
    rewrite encodeStep_wait by reflexivity. cbn [val].
    unfold Math_floor_div, Math_trunc.
    replace (Z.max 0 (Z.min 1270 ((b - 128) * 10))) with ((b - 128) * 10)
      by lia.
    rewrite Z.div_mul by lia. lia.
Qed.

Lemma encode_decode_bytes (bytes : list Z) :
  Forall (fun b => 1 <= b <= 255) bytes ->
  map encodeStep (map decodeByte bytes) = bytes.
Proof.
  induction 1 as [|b l Hb _ IH]; simpl; [reflexivity|].
  now rewrite encode_decode_byte, IH.
Qed.

Lemma encoded_in_range (l : list Step) :
  Forall (fun b => 1 <= b <= 255) (map encodeStep l).
Proof.
  induction l as [|s l IH]; simpl; constructor; [|exact IH].
  apply encodeStep_nonzero.
Qed.

(** *** Indexed map and filter *)

Lemma length_map_idx {A B : Type} (f : A -> nat -> B) (l : list A) (k : nat) :
  length (map_idx f l k) = length l.
Proof.
  revert k; induction l as [|a l IH]; intros k; simpl; [|rewrite IH];
    reflexivity.
Qed.

Lemma nth_error_map_idx {A B : Type} (f : A -> nat -> B) (l : list A)
      (k j : nat) :
  nth_error (map_idx f l k) j =
  option_map (fun a => f a (k + j)%nat) (nth_error l j).
Proof.
  revert k j; induction l as [|a l IH]; intros k [|j]; simpl;
    try reflexivity.
  - now rewrite Nat.add_0_r.
  - rewrite IH. now replace (S k + j)%nat with (k + S j)%nat by lia.
Qed.

Lemma filter_idx_keep {A : Type} (l : list A) (i k : nat) :
  (i < k)%nat -> filter_idx (fun _ idx => negb (idx =? i)%nat) l k = l.
Proof.
  revert k; induction l as [|a l IH]; intros k Hk; simpl; [reflexivity|].
  destruct (Nat.eqb_spec k i); [lia|]. simpl. now rewrite IH by lia.
Qed.

Lemma filter_idx_drop {A : Type} (l : list A) (i k : nat) :
  (k <= i)%nat ->
  filter_idx (fun _ idx => negb (idx =? i)%nat) l k =
  firstn (i - k) l ++ skipn (S (i - k)) l.
Proof.
  revert k; induction l as [|a l IH]; intros k Hk.
  - simpl. now destruct (i - k)%nat.
  - cbn [filter_idx]. destruct (Nat.eqb_spec k i) as [->|Hne].
    + cbn [negb]. rewrite Nat.sub_diag. cbn [firstn skipn app].
      apply filter_idx_keep. lia.
    + cbn [negb]. rewrite IH by lia.
      replace (i - k)%nat with (S (i - S k))%nat by lia. reflexivity.
Qed.

(** *** Libraries *)

(** X1: [libById] returns the table entry with the asked id when the id is
    one of 0..6, and falls back to the first entry (library 0, "Empty",
    no effects) for every other id; the result is always a table entry. *)
Theorem libById_lookup (i : Z) :
  In (libById i) LIBRARIES /\
  id (libById i) = (if (0 <=? i) && (i <=? MAX_LIBRARY_ID) then i else 0) /\
  (id (libById i) <> i -> effectMax (libById i) = 0).
Proof.
  destruct ((0 <=? i) && (i <=? MAX_LIBRARY_ID)) eqn:E.
  - apply andb_true_iff in E. destruct E as [H0 H6].
    apply Z.leb_le in H0. apply Z.leb_le in H6.
    change MAX_LIBRARY_ID with 6 in H6.
    assert (H : i = 0 \/ i = 1 \/ i = 2 \/ i = 3 \/ i = 4 \/ i = 5 \/ i = 6)
      by lia.
    repeat (destruct H as [->|H]; [cbv; intuition congruence|]).
    subst i. cbv; intuition congruence.
  - assert (Hout : i < 0 \/ 6 < i).
    { apply andb_false_iff in E. destruct E as [E|E].
      - apply Z.leb_gt in E. lia.
      - apply Z.leb_gt in E. change MAX_LIBRARY_ID with 6 in E. lia. }
    assert (Hfb : libById i = mkLib 0 "Empty" "No ROM effects" 0).
    { unfold libById, LIBRARIES. cbn [find id].
      repeat (match goal with
              | |- context [?a =? i] =>
                  destruct (Z.eqb_spec a i); [lia|]
              end).
      reflexivity. }
    rewrite Hfb. cbn [id effectMax]. repeat split.
    left; reflexivity.
Qed.







(** A preset whose library number is 2.5: the editor keeps 2.5 and shows
    library 0. *)
Lemma doLoad_lib_fraction_example :
  (doLoad_lib (Some (5 # 2)) == 5 # 2)%Q /\
  id (libById_num (doLoad_lib (Some (5 # 2)))) = 0.
Proof. split; reflexivity. Qed.

(** X3: every id that the effect slider can deliver (1 up to its maximum)
    is within the global cap 123, within the selected library's cap when
    that library has effects at all, and is sent unchanged by
    [encodeSteps]. *)
Theorem slider_ids_respect_caps (libId v : Z) :
  1 <= v <= effect_slider_max libId ->
  v <= EFFECT_ID_MAX /\
  (0 < effectMax (libById libId) -> v <= effectMax (libById libId)) /\
  encodeSteps [Effect v] = [v].
Proof.
  unfold effect_slider_max, editor_effectMax, EFFECT_ID_MAX. intros Hv.
  assert (Hc : v <= 123 /\
               (0 < effectMax (libById libId) ->
                v <= effectMax (libById libId))).
  { destruct (0 <? effectMax (libById libId)) eqn:E.
    - apply Z.ltb_lt in E. lia.
    - apply Z.ltb_ge in E. lia. }
  destruct Hc as [H1 H2]. repeat split; [exact H1|exact H2|].
  rewrite encodeSteps_map. cbn [firstn map].
  rewrite encodeStep_effect by reflexivity. cbn [Effect val]. f_equal. lia.
Qed.

Lemma slider_ids_respect_caps_witness :
  1 <= 64 <= effect_slider_max 6 /\ encodeSteps [Effect 64] = [64].
Proof.
  assert (H : 1 <= 64 <= effect_slider_max 6) by (cbv; split; discriminate).
  split; [exact H|].
  exact (proj2 (proj2 (slider_ids_respect_caps 6 64 H))).
Defined.

(** *** Loading *)

(** X4: whatever bytes a preset holds, the step list put into the editor
    by [doLoad] has between 1 and 8 steps, each of them valid: an effect
    id in 1..127 or a wait of a whole multiple of 10 ms in 0..1270. *)
Theorem doLoad_steps_valid (p_steps : option (list Z)) :
  (1 <= length (doLoad_steps p_steps) <= 8)%nat /\
  Forall valid_step (doLoad_steps p_steps).
Proof.
  assert (Hlen : (length (uiSteps p_steps) <= 8)%nat).
  { unfold uiSteps, slice_0_8. rewrite length_map, length_firstn. lia. }
  assert (Hval : Forall valid_step (uiSteps p_steps)).
  { unfold uiSteps. apply Forall_forall. intros s Hs.
    apply in_map_iff in Hs. destruct Hs as (b & <- & _).
    apply decodeByte_valid. }
  unfold doLoad_steps. destruct (uiSteps p_steps) as [|s l].
  - split; [simpl; lia|]. repeat constructor; unfold valid_step; simpl; lia.
  - split; [simpl in *; lia|exact Hval].
Qed.



(** X6: saving and loading changes nothing that can be heard: the steps
    that [doLoad] makes from the bytes of [encodeSteps] encode to the same
    bytes again, for every step list; only for the empty list the editor
    gets one step, Effect 1, instead. *)
Theorem save_load_same_bytes (steps : list Step) :
  encodeSteps (uiSteps (Some (encodeSteps steps))) = encodeSteps steps /\
  encodeSteps (doLoad_steps (Some (encodeSteps steps))) =
  match steps with [] => [1] | _ => encodeSteps steps end.
Proof.
  assert (Hrt : encodeSteps (uiSteps (Some (encodeSteps steps)))
                = encodeSteps steps).
  { unfold uiSteps, slice_0_8. rewrite !encodeSteps_map.
    rewrite !firstn_all2
      by (rewrite ?length_map, ?length_firstn; lia).
    apply encode_decode_bytes, encoded_in_range. }
  split; [exact Hrt|].
  destruct steps as [|s l]; [reflexivity|].
  unfold doLoad_steps.
  destruct (uiSteps (Some (encodeSteps (s :: l)))) as [|u us] eqn:E;
    [|exact Hrt].
  apply (f_equal (@length Step)) in E. unfold uiSteps, slice_0_8 in E.
  rewrite encodeSteps_map in E. simpl in E. discriminate.
Qed.

(** *** Editing *)

Lemma length_addStep (l : list Step) :
  (length l <= 8)%nat -> (length (addStep l) <= 8)%nat.
Proof.
  unfold addStep. intros Hl. destruct (Nat.ltb_spec (length l) 8).
  - rewrite length_app. simpl. lia.
  - exact Hl.
Qed.

Lemma removeStep_splits (i : nat) (l : list Step) :
  removeStep i l = firstn i l ++ skipn (S i) l.
Proof.
  unfold removeStep. rewrite filter_idx_drop by lia.
  now rewrite Nat.sub_0_r.
Qed.

(** X7: [updateStep i patch] keeps the number of steps, replaces the step
    at index [i] by that step overwritten with the keys of the patch, and
    leaves every other step alone; an index beyond the list changes
    nothing. *)
Theorem updateStep_lookup (i : nat) (patch : StepPatch) (l : list Step) :
  length (updateStep i patch l) = length l /\
  (forall j, nth_error (updateStep i patch l) j =
             if (j =? i)%nat
             then option_map (fun s => spread s patch) (nth_error l j)
             else nth_error l j) /\
  ((length l <= i)%nat -> updateStep i patch l = l).
Proof.
  assert (Hnth : forall j, nth_error (updateStep i patch l) j =
             if (j =? i)%nat
             then option_map (fun s => spread s patch) (nth_error l j)
             else nth_error l j).
  { intros j. unfold updateStep. rewrite nth_error_map_idx. cbn [Nat.add].
    destruct (j =? i)%nat; [reflexivity|].
    now destruct (nth_error l j). }
  assert (Hlen : length (updateStep i patch l) = length l)
    by apply length_map_idx.
  split; [exact Hlen|]. split; [exact Hnth|].
  intros Hi. apply nth_error_ext. intros j. rewrite Hnth.
  destruct (Nat.eqb_spec j i) as [->|_]; [|reflexivity].
  replace (nth_error l i) with (@None Step); [reflexivity|].
  symmetry. apply nth_error_None. exact Hi.
Qed.

(** X8: [removeStep i] removes exactly the step at index [i]: what is
    before it and what is behind it stay, in order; an index beyond the
    list changes nothing, and the last remaining step can be removed. *)
Theorem removeStep_drops_one (i : nat) (l : list Step) :
  removeStep i l = firstn i l ++ skipn (S i) l /\
  ((i < length l)%nat -> S (length (removeStep i l)) = length l) /\
  ((length l <= i)%nat -> removeStep i l = l) /\
  (forall s, removeStep 0 [s] = []).
Proof.
  rewrite removeStep_splits. repeat split.
  - intros Hi. rewrite length_app, length_firstn, length_skipn. lia.
  - intros Hi. rewrite firstn_all2, skipn_all2 by lia. apply app_nil_r.
Qed.

(** X9: whatever the user does in the editor, starting from its initial
    three steps (adding and removing steps, changing them, loading
    presets), the list never has more than 8 steps, so [encodeSteps]
    drops none of them. *)
Theorem editor_keeps_eight (edits : list edit) :
  (length (editor_after edits) <= 8)%nat /\
  encodeSteps (editor_after edits) = map encodeStep (editor_after edits).
Proof.
  assert (H : (length (editor_after edits) <= 8)%nat).
  { unfold editor_after.
    assert (H0 : (length initial_steps <= 8)%nat) by (simpl; lia).
    revert H0. generalize initial_steps as l.
    induction edits as [|a edits IH]; intros l Hl; [exact Hl|].
    cbn [fold_left]. apply IH. destruct a as [|i|i patch|p]; cbn [apply_edit].
    - now apply length_addStep.
    - rewrite removeStep_splits, length_app, length_firstn, length_skipn. lia.
    - unfold updateStep. now rewrite length_map_idx.
    - unfold doLoad_steps, uiSteps, slice_0_8.
      destruct (map decodeByte _) as [|u us] eqn:E; [simpl; lia|].
      rewrite <- E, length_map, length_firstn. lia. }
  split; [exact H|].
  rewrite encodeSteps_map. now rewrite firstn_all2.
Qed.

End EditorFacts.

(* ================================================================== *)
(** ** The register pages, the status flags and the routes *)

Module TuningFacts.
Import Tuning.

Lemma clamp_byte (v : Z) :
  0 <= Z.max 0 (Z.min 255 (Codec.Math_trunc v)) <= 255 /\
  (0 <= v <= 255 -> Z.max 0 (Z.min 255 (Codec.Math_trunc v)) = v).
Proof. unfold Codec.Math_trunc. lia. Qed.

(** X10: the values that [applyToDevice] of the timing page passes to
    [set_timing_offsets] are always register bytes, 0..255, whatever the
    sliders hold and whether or not the call then succeeds; a slider
    value in 0..255 is passed as it is. *)
Theorem timing_apply_sends_bytes
        (r : reply unit) (st : TimingOffsets.state) :
  exists a b c d,
    fst (TimingOffsets.applyToDevice r st)
    = TimingOffsets.set_timing_offsets a b c d /\
    (0 <= a <= 255 /\ 0 <= b <= 255 /\ 0 <= c <= 255 /\ 0 <= d <= 255) /\
    (0 <= TimingOffsets.ovr st <= 255 -> a = TimingOffsets.ovr st) /\
    (0 <= TimingOffsets.susP st <= 255 -> b = TimingOffsets.susP st) /\
    (0 <= TimingOffsets.susN st <= 255 -> c = TimingOffsets.susN st) /\
    (0 <= TimingOffsets.brk st <= 255 -> d = TimingOffsets.brk st).
Proof.
  unfold TimingOffsets.applyToDevice, TimingOffsets.clamp. cbn [fst].
  do 4 eexists. split; [reflexivity|].
  pose proof (clamp_byte (TimingOffsets.ovr st)).
  pose proof (clamp_byte (TimingOffsets.susP st)).
  pose proof (clamp_byte (TimingOffsets.susN st)).
  pose proof (clamp_byte (TimingOffsets.brk st)).
  intuition.
Qed.

(** X11: reading the timing offsets and applying them at once writes back
    what the device reported, each value clamped into 0..255 and hence
    unchanged when the device reported bytes; a failed read leaves the
    four sliders as they were. *)
Theorem timing_read_then_apply
        (o : TimingOffsets.offsets) (st : TimingOffsets.state)
        (r : reply unit) (e : string) :
  let c := TimingOffsets.clamp in
  fst (TimingOffsets.applyToDevice r
         (fst (TimingOffsets.readFromDevice (inl o) st)))
  = TimingOffsets.set_timing_offsets
      (c (TimingOffsets.overdrive o)) (c (TimingOffsets.sustain_pos o))
      (c (TimingOffsets.sustain_neg o)) (c (TimingOffsets.brake o)) /\
  (0 <= TimingOffsets.overdrive o <= 255 ->
   0 <= TimingOffsets.sustain_pos o <= 255 ->
   0 <= TimingOffsets.sustain_neg o <= 255 ->
   0 <= TimingOffsets.brake o <= 255 ->
   fst (TimingOffsets.applyToDevice r
          (fst (TimingOffsets.readFromDevice (inl o) st)))
   = TimingOffsets.set_timing_offsets
       (TimingOffsets.overdrive o) (TimingOffsets.sustain_pos o)
       (TimingOffsets.sustain_neg o) (TimingOffsets.brake o)) /\
  fst (TimingOffsets.readFromDevice (inr e) st) = st.
Proof.
  intros c. subst c.
  unfold TimingOffsets.applyToDevice, TimingOffsets.readFromDevice,
    TimingOffsets.clamp, Codec.Math_trunc.
  cbn [fst TimingOffsets.ovr TimingOffsets.susP TimingOffsets.susN
       TimingOffsets.brk].
  repeat split.
  - f_equal; lia.
  - intros. f_equal; lia.
Qed.

(** X12: the drive-parameter page behaves alike: [applyToDevice] passes
    two register bytes to [set_drive_params], slider values in 0..255
    unchanged; after a successful read it writes back the clamped reply;
    a failed read leaves both sliders as they were. *)
Theorem drive_params_bytes
        (p : DriveParams.params) (st : DriveParams.state)
        (r : reply unit) (e : string) :
  (exists a b,
      fst (DriveParams.applyToDevice r st) = DriveParams.set_drive_params a b /\
      0 <= a <= 255 /\ 0 <= b <= 255 /\
      (0 <= DriveParams.rated st <= 255 -> a = DriveParams.rated st) /\
      (0 <= DriveParams.over st <= 255 -> b = DriveParams.over st)) /\
  fst (DriveParams.applyToDevice r
         (fst (DriveParams.readFromDevice (inl p) st)))
  = DriveParams.set_drive_params
      (DriveParams.clamp (DriveParams.p_rated p))
      (DriveParams.clamp (DriveParams.p_overdrive p)) /\
  fst (DriveParams.readFromDevice (inr e) st) = st.
Proof.
  unfold DriveParams.applyToDevice, DriveParams.readFromDevice,
    DriveParams.clamp.
  cbn [fst DriveParams.rated DriveParams.over].
  split; [|split; [|reflexivity]].
  - do 2 eexists. split; [reflexivity|].
    pose proof (clamp_byte (DriveParams.rated st)).
    pose proof (clamp_byte (DriveParams.over st)).
    intuition.
  - unfold Codec.Math_trunc. f_equal; lia.
Qed.

End TuningFacts.

Module StatusViewFacts.
Import StatusView.

(** X13: the flag text of the status card and of the diagnostics toast is
    "none" exactly when none of over-current, over-temperature and
    feedback time-out is set; otherwise it lists the set flags in that
    order as OC, OT, FB_TO, separated by a blank in the card and by a
    comma and a blank in the toast. *)
Theorem flags_text (s : Status) :
  StatusCard_flags s =
  match raised s with [] => "none"%string | l => join " " l end /\
  toastStatus_flags s =
  match raised s with [] => "none"%string | l => join ", " l end /\
  (StatusCard_flags s = "none"%string <->
   over_current s = false /\ over_temp s = false /\ fb_timeout s = false).
Proof.
  destruct s as [fb ot oc].
  destruct fb, ot, oc; cbv;
    (split; [reflexivity|split; [reflexivity|]]);
    split; intros H; try discriminate H; try reflexivity;
    try (destruct H as (H1 & H2 & H3); discriminate);
    repeat split.
Qed.

End StatusViewFacts.

Module PluginFacts.
Import Plugin.






End PluginFacts.

(* ================================================================== *)
(** ** More on the sniffer *)

Module SnifferMore.
Import Sniffer SnifferFacts.

(** *** Descriptors *)

Lemma closed_fire bus i w : closed (fire bus i w) = closed w.
Proof.
  unfold closed. rewrite log_fire, flat_map_app.
  unfold send_report. destruct (write_fails _ _); cbn; apply app_nil_r.
Qed.

Lemma closed_fires bus l w : closed (fires bus l w) = closed w.
Proof.
  revert w; induction l as [|i l IH]; intros w; [reflexivity|].
  now rewrite fires_cons, IH, closed_fire.
Qed.

Lemma closed_bail w : closed (bail w) = closed w ++ [usbmon_fd; i2c_fd].
Proof.
  unfold closed, bail, emit. cbn [log].
  rewrite <- !app_assoc, flat_map_app. reflexivity.
Qed.

Lemma run_exit bus feed w :
  match run bus feed w with
  | Exited c w' => c = 1 /\ closed w' = closed w ++ [usbmon_fd; i2c_fd]
  | Blocked w' => closed w' = closed w
  | Undefined => False
  end.
Proof.
  revert w; induction feed as [|it feed IH]; intros w; cbn [run];
    [reflexivity|].
  destruct (result it) as [|d].
  - split; [reflexivity|]. now rewrite closed_bail.
  - specialize (IH (fires bus (occurrences d) (tick it w))).
    rewrite closed_fires in IH. exact IH.
Qed.

(** *** Occurrences do not overlap *)

Lemma occurrences_cons (a : byte) (s : list byte) :
  occurrences (a :: s) =
  (if occurs_at (a :: s) 0 then [0%nat] else []) ++ map S (occurrences s).
Proof.
  unfold occurrences. cbn [length seq filter].
  rewrite <- seq_shift, filter_map_swap.
  now destruct (occurs_at (a :: s) 0).
Qed.

Lemma length_occurrences (s : list byte) : length (occurrences s) = hits s.
Proof.
  induction s as [|a s IH]; [reflexivity|].
  rewrite occurrences_cons, length_app, length_map, IH. cbn [hits].
  now destruct (occurs_at (a :: s) 0).
Qed.

Lemma occurs_not_e (a : byte) (t : list byte) :
  a <> "e"%byte -> occurs_at (a :: t) 0 = false.
Proof.
  intros Ha. apply not_true_is_false. intros H.
  apply occurs_at_eq in H. cbn [skipn firstn] in H.
  assert (Hs : signature = "e"%byte :: tl signature) by reflexivity.
  rewrite Hs in H. injection H as H _. contradiction.
Qed.

Lemma hits_signature (s : list byte) : hits (signature ++ s) = S (hits s).
Proof.
  assert (H0 : occurs_at (signature ++ s) 0 = true).
  { apply occurs_at_eq. cbn [skipn].
    rewrite firstn_app, signature_length. cbn [Nat.sub firstn].
    rewrite app_nil_r. reflexivity. }
  revert H0.
  change (signature ++ s)
    with ("e" :: "b" :: "0" :: "9" :: "0" :: "1" :: "4" :: "0" :: s)%byte.
  intros H0. cbn [hits]. rewrite H0.
  rewrite !occurs_not_e by discriminate. reflexivity.
Qed.

Lemma hits_bound (n : nat) (s : list byte) :
  (length s <= n)%nat -> (8 * hits s <= length s)%nat.
Proof.
  revert s; induction n as [|n IH]; intros s Hn.
  - destruct s; [simpl; lia|simpl in Hn; lia].
  - destruct s as [|a t]; [simpl; lia|].
    destruct (occurs_at (a :: t) 0) eqn:O.
    + pose proof (occurs_at_inside _ _ O) as Hin.
      apply occurs_at_eq in O. cbn [skipn] in O.
      rewrite <- (firstn_skipn 8 (a :: t)), O, hits_signature.
      assert (Hl : (length (skipn 8 (a :: t)) <= n)%nat).
      { rewrite length_skipn. simpl in Hn |- *. lia. }
      specialize (IH _ Hl). rewrite length_app, signature_length. lia.
    + cbn [hits]. rewrite O. specialize (IH t). simpl in Hn |- *. lia.
Qed.

Lemma matches_bound (chunks : list (list byte)) :
  (8 * length (flat_map occurrences chunks) <= length (concat chunks))%nat.
Proof.
  induction chunks as [|c cs IH]; [simpl; lia|].
  cbn [flat_map concat]. rewrite !length_app, length_occurrences.
  pose proof (hits_bound (length c) c (le_n _)). lia.
Qed.

Lemma short_chunk (c : list byte) :
  (length c < 8)%nat -> occurrences c = [].
Proof.
  intros Hc. pose proof (hits_bound (length c) c (le_n _)) as H.
  rewrite <- length_occurrences in H.
  destruct (occurrences c); [reflexivity|simpl in H; lia].
Qed.

(** *** Runs that differ in timing only *)

Lemma events_fire bus i w :
  events (fire bus i w) =
  events w ++ [ Printf (PatternFound i) ; I2CWrite (slave w) data_to_send
              ; send_report bus (n_writes w) ; Usleep 10000 ].
Proof. unfold events. now rewrite log_fire, map_app. Qed.

Lemma same_trace_fire bus i w w' :
  same_trace w w' -> same_trace (fire bus i w) (fire bus i w').
Proof.
  intros (He & Hn & Hs). unfold same_trace.
  rewrite !events_fire, He, Hn, Hs.
  destruct (fire_fields bus i w) as (_ & -> & _ & ->).
  destruct (fire_fields bus i w') as (_ & -> & _ & ->).
  rewrite Hn, Hs. repeat split.
Qed.

Lemma same_trace_fires bus l w w' :
  same_trace w w' -> same_trace (fires bus l w) (fires bus l w').
Proof.
  revert w w'; induction l as [|i l IH]; intros w w' H; [exact H|].
  rewrite !fires_cons. apply IH, same_trace_fire, H.
Qed.

Lemma same_trace_tick it it' w w' :
  same_trace w w' -> same_trace (tick it w) (tick it' w').
Proof. intros H. exact H. Qed.

Lemma same_trace_bail w w' : same_trace w w' -> same_trace (bail w) (bail w').
Proof.
  intros (He & Hn & Hs). unfold same_trace.
  rewrite !events_bail, He. repeat split; assumption.
Qed.

Lemma same_trace_run bus feed w w' :
  same_trace w w' ->
  same_trace (run_world bus feed w) (run_world bus feed w') /\
  exit_code (run bus feed w) = exit_code (run bus feed w').
Proof.
  revert w w'; induction feed as [|it feed IH]; intros w w' H;
    cbn [run_world run]; [split; [exact H|reflexivity]|].
  destruct (result it) as [|d].
  - split; [|reflexivity]. now apply same_trace_bail, same_trace_tick.
  - apply IH, same_trace_fires, same_trace_tick, H.
Qed.

Lemma quiet_item bus pre t d post w :
  occurrences d = [] ->
  same_trace (run_world bus (pre ++ mkItem t (ReadData d) :: post) w)
             (run_world bus (pre ++ post) w) /\
  exit_code (run bus (pre ++ mkItem t (ReadData d) :: post) w) =
  exit_code (run bus (pre ++ post) w).
Proof.
  intros Hq. revert w; induction pre as [|it pre IH]; intros w.
  - cbn [app run_world run result]. rewrite Hq. cbn [fires fold_left].
    apply same_trace_run. repeat split.
  - cbn [app run_world run]. destruct (result it) as [|d'].
    + repeat split.
    + apply IH.
Qed.

(** *** Whole runs of [main] *)

Lemma run_shape bus feed w :
  run bus feed w =
  if read_fails feed then Exited 1 (run_world bus feed w)
  else Blocked (run_world bus feed w).
Proof.
  revert w; induction feed as [|it feed IH]; intros w;
    cbn [run run_world read_fails existsb]; [reflexivity|].
  destruct (result it) as [|d]; cbn [orb]; [reflexivity|apply IH].
Qed.

Lemma startup_failure e stack :
  startup_ok e = false ->
  exists w, main e stack = Exited 1 w /\ closed w = opened e /\
            n_reads w = 0%nat /\ bus_writes w = [].
Proof.
  unfold startup_ok, main, opened. intros Hno.
  destruct (open_usbmon_ok e); cbn [negb andb] in *;
    [|eexists; repeat split; reflexivity].
  destruct (open_i2c_ok e); cbn [negb andb] in *;
    [|eexists; repeat split; reflexivity].
  rewrite Hno. cbn [negb]. eexists; repeat split; reflexivity.
Qed.

(** X15: [main] returns exactly when a start-up call fails or a read of
    the feed fails, and then with status 1, never 0, having closed exactly
    the descriptors it had opened, the usbmon file before the I2C file;
    after a failed start-up call it has neither read the feed nor written
    on the bus; otherwise it is still waiting in [read] and has closed
    nothing. *)
Theorem main_exit_discipline (e : env) (stack : list byte) :
  let returns := negb (startup_ok e) || read_fails (feed e) in
  exists w,
    main e stack = (if returns then Exited 1 w else Blocked w) /\
    closed w = (if returns then opened e else []) /\
    (startup_ok e = false -> n_reads w = 0%nat /\ bus_writes w = []).
Proof.
  intros returns. subst returns.
  destruct (startup_ok e) eqn:Hok; cbn [negb orb].
  - rewrite (main_run e stack Hok), run_shape.
    exists (run_world (bus e) (feed e) started).
    pose proof (run_exit (bus e) (feed e) started) as Hrun.
    rewrite run_shape in Hrun.
    assert (Hop : opened e = [usbmon_fd; i2c_fd]).
    { unfold startup_ok in Hok. unfold opened.
      destruct (open_usbmon_ok e), (open_i2c_ok e); try discriminate.
      reflexivity. }
    destruct (read_fails (feed e)).
    + split; [reflexivity|]. split; [|discriminate].
      rewrite Hop. apply Hrun.
    + split; [reflexivity|]. split; [exact Hrun|discriminate].
  - destruct (startup_failure e stack Hok) as (w & Hw & Hc & Hr & Hb).
    exists w. split; [exact Hw|]. split; [exact Hc|].
    intros _. split; [exact Hr|exact Hb].
Qed.


(** X17: two occurrences of the signature never overlap, so a chunk of n
    bytes holds at most n/8 matches; over a whole run the number of bus
    writes is at most an eighth of the number of bytes read. *)
Theorem matches_are_sparse (e : env) (stack : list byte) :
  (forall chunk, (8 * length (occurrences chunk) <= length chunk)%nat) /\
  exists w, final (main e stack) = Some w /\
            (8 * length (bus_writes w) <= length (concat (scanned e)))%nat.
Proof.
  split.
  - intros chunk. rewrite length_occurrences.
    apply (hits_bound (length chunk)). apply le_n.
  - destruct (main_cases e stack)
      as [[Hok Hmain]|[Hno (w & Hw & _ & _ & Hb & _)]].
    + rewrite Hmain, run_final. eexists; split; [reflexivity|].
      rewrite run_world_bus_writes.
      destruct started_fields as (_ & _ & _ & _ & -> & _).
      cbn [app]. rewrite repeat_length, <- scanned_ok by exact Hok.
      apply matches_bound.
    + exists w. rewrite Hw, Hb. split; [reflexivity|simpl; lia].
Qed.

(** X18: a read that delivers no complete signature, in particular one of
    fewer than 8 bytes or of none at all (end of file), neither triggers
    nor stops the loop: apart from time stamps, the run is the one without
    that read. *)
Theorem quiet_read_leaves_no_trace
        (e : env) (stack : list byte) (pre post : list feed_item)
        (t : Z) (d : list byte) :
  feed e = pre ++ mkItem t (ReadData d) :: post ->
  occurrences d = [] ->
  exit_code (main e stack) = exit_code (main (with_feed e (pre ++ post)) stack)
  /\
  option_map events (final (main e stack)) =
  option_map events (final (main (with_feed e (pre ++ post)) stack)) /\
  (forall c : list byte, (length c < 8)%nat -> occurrences c = []).
Proof.
  intros Hfeed Hq. split; [|split; [|exact short_chunk]].
  - destruct (startup_ok e) eqn:Hok.
    + rewrite !main_run by exact Hok. cbn [with_feed feed bus].
      rewrite Hfeed. now apply quiet_item.
    + destruct (main_cases e stack) as [[H _]|[_ (w & Hw & _)]];
        [congruence|].
      destruct (main_cases (with_feed e (pre ++ post)) stack)
        as [[H _]|[_ (w' & Hw' & _)]]; [unfold startup_ok in *; cbn in H; congruence|].
      now rewrite Hw, Hw'.
  - destruct (startup_ok e) eqn:Hok.
    + rewrite !main_run by exact Hok. cbn [with_feed feed bus].
      rewrite Hfeed, !run_final. cbn [option_map]. f_equal.
      now apply quiet_item.
    + unfold startup_ok in Hok. unfold main. cbn [with_feed open_usbmon_ok
        open_i2c_ok ioctl_ok].
      destruct (open_usbmon_ok e); cbn [negb andb] in *; [|reflexivity].
      destruct (open_i2c_ok e); cbn [negb andb] in *; [|reflexivity].
      rewrite Hok. reflexivity.
Qed.

Lemma quiet_read_leaves_no_trace_witness :
  let e := mkEnv true true true
             (feed_of [(0, signature)] ++ mkItem 5 (ReadData [])
                       :: feed_of [(9, signature)])
             (fun _ => 2) in
  option_map events (final (main e [])) =
  option_map events
    (final (main (with_feed e (feed_of [(0, signature)]
                               ++ feed_of [(9, signature)])) [])).
Proof.
  intros e.
  exact (proj1 (proj2 (quiet_read_leaves_no_trace e []
                         (feed_of [(0, signature)])
                         (feed_of [(9, signature)]) 5 [] eq_refl eq_refl))).
Defined.

End SnifferMore.

(* ================================================================== *)
(** ** The call sequence of "Apply & Play" *)

Module ApplyFacts.
Import Codec.


End ApplyFacts.
